(** * go-ini: the event parser (parserc.go) as a shallow embedding

    The development follows the Go sources: the declarations of the data
    model, the token queue ([peek_token], [skip_token]), the driver
    [ini_parser_parse], the dispatcher [ini_parser_state_machine] and one
    transition function per grammar state.  Go pointers to the parser are
    modelled by a state monad over [ini_parser_t] whose second outcome is a
    Go run-time panic; the out-parameter [*event] is passed in and returned. *)

From Stdlib Require Import List ZArith String Bool Lia.
From Stdlib.Strings Require Import Byte.
Import ListNotations.
Open Scope Z_scope.
Open Scope string_scope.
Open Scope list_scope.

(** ** Data model *)

(** [ini_error_type_t]. *)
Inductive ini_error_type_t : Type :=
| ini_NO_ERROR
| ini_MEMORY_ERROR
| ini_READER_ERROR
| ini_SCANNER_ERROR
| ini_PARSER_ERROR
| ini_COMPOSER_ERROR
| ini_WRITER_ERROR
| ini_EMITTER_ERROR.

(** [ini_mark_t]: the three counters are Go [int]s. *)
Record ini_mark_t : Type := mk_mark {
  index : Z;
  line : Z;
  column : Z
}.

Definition zero_mark : ini_mark_t := mk_mark 0 0 0.

(** [ini_scalar_style_t], an [iota] enumeration over [int8]. *)
Definition ini_ANY_SCALAR_STYLE : Z := 0.
Definition ini_PLAIN_SCALAR_STYLE : Z := 1.
Definition ini_LITERAL_SCALAR_STYLE : Z := 2.
Definition ini_SINGLE_QUOTED_SCALAR_STYLE : Z := 3.
Definition ini_DOUBLE_QUOTED_SCALAR_STYLE : Z := 4.

(** [ini_token_type_t].  The last three kinds are the ones parserc.go tests
    for ([ini_SECTION_KEY_TOKEN], [ini_SECTION_VALUE_TOKEN],
    [ini_SCALAR_TOKEN]); the others are the declared enumeration. *)
Inductive ini_token_type_t : Type :=
| ini_NO_TOKEN
| ini_STREAM_START_TOKEN
| ini_STREAM_END_TOKEN
| ini_DOCUMENT_START_TOKEN
| ini_DOCUMENT_END_TOKEN
| ini_SECTION_START_TOKEN
| ini_SECTION_END_TOKEN
| ini_SECTION_INHERIT_TOKEN
| ini_KEY_TOKEN
| ini_VALUE_TOKEN
| ini_COMMENT_START_TOKEN
| ini_COMMENT_END_TOKEN
| ini_SECTION_KEY_TOKEN
| ini_SECTION_VALUE_TOKEN
| ini_SCALAR_TOKEN.

Definition token_type_eq_dec (a b : ini_token_type_t) : {a = b} + {a <> b}.
Proof. decide equality. Defined.

(** The Go comparison [a == b] on token kinds. *)
Definition typ_is (a b : ini_token_type_t) : bool :=
  if token_type_eq_dec a b then true else false.

(** [ini_token_t]. *)
Record ini_token_t : Type := mk_token {
  typ : ini_token_type_t;
  start_mark : ini_mark_t;
  end_mark : ini_mark_t;
  value : list byte;
  style : Z
}.

(** [ini_event_type_t]; [ini_SECTION_ENTRY_EVENT] is the kind parserc.go
    emits for section headers and boundaries. *)
Inductive ini_event_type_t : Type :=
| ini_NO_EVENT
| ini_STREAM_START_EVENT
| ini_STREAM_END_EVENT
| ini_DOCUMENT_START_EVENT
| ini_DOCUMENT_END_EVENT
| ini_SECTION_START_EVENT
| ini_SECTION_INHERIT_EVENT
| ini_SECTION_END_EVENT
| ini_SCALAR_EVENT
| ini_KEY_EVENT
| ini_VALUE_EVENT
| ini_COMMENT_EVENT
| ini_SECTION_ENTRY_EVENT.

(** [ini_event_t], with the [tag] field that parserc.go fills in.  Byte
    slices are lists of bytes: a nil slice and an empty slice are both the
    empty list, and the sharing of backing arrays between the values of
    tokens, which is up to the scanner, is not represented. *)
Record ini_event_t : Type := mk_event {
  e_typ : ini_event_type_t;
  e_start_mark : ini_mark_t;
  e_end_mark : ini_mark_t;
  e_value : list byte;
  e_tag : list byte;
  e_implicit : bool;
  e_style : Z
}.

(** The Go zero value [ini_event_t{}]. *)
Definition empty_event : ini_event_t :=
  mk_event ini_NO_EVENT zero_mark zero_mark [] [] false 0.

(** [ini_parser_state_t].  The last three states are the ones the dispatcher
    of parserc.go names for keys and values. *)
Inductive ini_parser_state_t : Type :=
| ini_PARSE_STREAM_START_STATE
| ini_PARSE_DOCUMENT_START_STATE
| ini_PARSE_DOCUMENT_END_STATE
| ini_PARSE_DOCUMENT_CONTENT_STATE
| ini_PARSE_SECTION_FIRST_ENTRY_STATE
| ini_PARSE_SECTION_ENTRY_STATE
| ini_PARSE_COMMENT_START_STATE
| ini_PARSE_COMMENT_CONTENT_STATE
| ini_PARSE_COMMENT_END_STATE
| ini_PARSE_KEY_STATE
| ini_PARSE_VALUE_STATE
| ini_PARSE_STREAM_END_STATE
| ini_PARSE_SECTION_FIRST_KEY_STATE
| ini_PARSE_SECTION_KEY_STATE
| ini_PARSE_SECTION_VALUE_STATE.

(** [ini_parser_t], restricted to the members the parser reads or writes.
    [tokens_head] indexes the slice [tokens]; [tokens_parsed] is a 64-bit
    [int] counter.  [scanner_rest] stands for the reader and scanner
    members: the tokens the scanner has not queued yet. *)
Record ini_parser_t : Type := mk_parser {
  error : ini_error_type_t;
  problem : string;
  problem_mark : ini_mark_t;
  context : string;
  context_mark : ini_mark_t;
  document_end_produced : bool;
  tokens : list ini_token_t;
  tokens_head : nat;
  tokens_parsed : Z;
  token_available : bool;
  state : ini_parser_state_t;
  states : list ini_parser_state_t;
  scanner_rest : list ini_token_t
}.

(** Field updates ([parser.f = v]). *)
Definition set_error (v : ini_error_type_t) (p : ini_parser_t) : ini_parser_t :=
  mk_parser v (problem p) (problem_mark p) (context p) (context_mark p)
    (document_end_produced p) (tokens p) (tokens_head p) (tokens_parsed p)
    (token_available p) (state p) (states p) (scanner_rest p).

Definition set_problem (v : string) (p : ini_parser_t) : ini_parser_t :=
  mk_parser (error p) v (problem_mark p) (context p) (context_mark p)
    (document_end_produced p) (tokens p) (tokens_head p) (tokens_parsed p)
    (token_available p) (state p) (states p) (scanner_rest p).

Definition set_problem_mark (v : ini_mark_t) (p : ini_parser_t) : ini_parser_t :=
  mk_parser (error p) (problem p) v (context p) (context_mark p)
    (document_end_produced p) (tokens p) (tokens_head p) (tokens_parsed p)
    (token_available p) (state p) (states p) (scanner_rest p).

Definition set_context (v : string) (p : ini_parser_t) : ini_parser_t :=
  mk_parser (error p) (problem p) (problem_mark p) v (context_mark p)
    (document_end_produced p) (tokens p) (tokens_head p) (tokens_parsed p)
    (token_available p) (state p) (states p) (scanner_rest p).

Definition set_context_mark (v : ini_mark_t) (p : ini_parser_t) : ini_parser_t :=
  mk_parser (error p) (problem p) (problem_mark p) (context p) v
    (document_end_produced p) (tokens p) (tokens_head p) (tokens_parsed p)
    (token_available p) (state p) (states p) (scanner_rest p).

Definition set_document_end_produced (v : bool) (p : ini_parser_t) : ini_parser_t :=
  mk_parser (error p) (problem p) (problem_mark p) (context p) (context_mark p)
    v (tokens p) (tokens_head p) (tokens_parsed p)
    (token_available p) (state p) (states p) (scanner_rest p).

Definition set_tokens (v : list ini_token_t) (p : ini_parser_t) : ini_parser_t :=
  mk_parser (error p) (problem p) (problem_mark p) (context p) (context_mark p)
    (document_end_produced p) v (tokens_head p) (tokens_parsed p)
    (token_available p) (state p) (states p) (scanner_rest p).

Definition set_tokens_head (v : nat) (p : ini_parser_t) : ini_parser_t :=
  mk_parser (error p) (problem p) (problem_mark p) (context p) (context_mark p)
    (document_end_produced p) (tokens p) v (tokens_parsed p)
    (token_available p) (state p) (states p) (scanner_rest p).

Definition set_tokens_parsed (v : Z) (p : ini_parser_t) : ini_parser_t :=
  mk_parser (error p) (problem p) (problem_mark p) (context p) (context_mark p)
    (document_end_produced p) (tokens p) (tokens_head p) v
    (token_available p) (state p) (states p) (scanner_rest p).

Definition set_token_available (v : bool) (p : ini_parser_t) : ini_parser_t :=
  mk_parser (error p) (problem p) (problem_mark p) (context p) (context_mark p)
    (document_end_produced p) (tokens p) (tokens_head p) (tokens_parsed p)
    v (state p) (states p) (scanner_rest p).

Definition set_state (v : ini_parser_state_t) (p : ini_parser_t) : ini_parser_t :=
  mk_parser (error p) (problem p) (problem_mark p) (context p) (context_mark p)
    (document_end_produced p) (tokens p) (tokens_head p) (tokens_parsed p)
    (token_available p) v (states p) (scanner_rest p).

Definition set_states (v : list ini_parser_state_t) (p : ini_parser_t) : ini_parser_t :=
  mk_parser (error p) (problem p) (problem_mark p) (context p) (context_mark p)
    (document_end_produced p) (tokens p) (tokens_head p) (tokens_parsed p)
    (token_available p) (state p) v (scanner_rest p).

Definition set_scanner_rest (v : list ini_token_t) (p : ini_parser_t) : ini_parser_t :=
  mk_parser (error p) (problem p) (problem_mark p) (context p) (context_mark p)
    (document_end_produced p) (tokens p) (tokens_head p) (tokens_parsed p)
    (token_available p) (state p) (states p) v.

(** ** Names of the enumerations *)

(** [func (tt ini_token_type_t) String() string]: a switch over the declared
    kinds; every other value takes the final [return]. *)
Definition ini_token_type_t_String (tt : ini_token_type_t) : string :=
  match tt with
  | ini_NO_TOKEN => "ini_NO_TOKEN"
  | ini_STREAM_START_TOKEN => "ini_STREAM_START_TOKEN"
  | ini_STREAM_END_TOKEN => "ini_STREAM_END_TOKEN"
  | ini_DOCUMENT_START_TOKEN => "ini_DOCUMENT_START_TOKEN"
  | ini_DOCUMENT_END_TOKEN => "ini_DOCUMENT_END_TOKEN"
  | ini_SECTION_START_TOKEN => "ini_SECTION_START_TOKEN"
  | ini_SECTION_END_TOKEN => "ini_SECTION_END_TOKEN"
  | ini_SECTION_INHERIT_TOKEN => "ini_SECTION_INHERIT_TOKEN"
  | ini_KEY_TOKEN => "ini_KEY_TOKEN"
  | ini_VALUE_TOKEN => "ini_VALUE_TOKEN"
  | ini_COMMENT_START_TOKEN => "ini_COMMENT_START_TOKEN"
  | ini_COMMENT_END_TOKEN => "ini_COMMENT_END_TOKEN"
  | _ => "<unknown token>"
  end.

(** The kinds that the [const] block of [ini_token_type_t] declares. *)
Definition declared_token_type (tt : ini_token_type_t) : bool :=
  match tt with
  | ini_SECTION_KEY_TOKEN | ini_SECTION_VALUE_TOKEN | ini_SCALAR_TOKEN => false
  | _ => true
  end.

(** [func (ps ini_parser_state_t) String() string]: the case of
    [ini_PARSE_STREAM_END_STATE] returns the name of the Document-End state,
    and there is no case for [ini_PARSE_SECTION_FIRST_ENTRY_STATE]. *)
Definition ini_parser_state_t_String (ps : ini_parser_state_t) : string :=
  match ps with
  | ini_PARSE_STREAM_START_STATE => "ini_PARSE_STREAM_START_STATE"
  | ini_PARSE_STREAM_END_STATE => "ini_PARSE_DOCUMENT_END_STATE"
  | ini_PARSE_DOCUMENT_START_STATE => "ini_PARSE_DOCUMENT_START_STATE"
  | ini_PARSE_DOCUMENT_CONTENT_STATE => "ini_PARSE_DOCUMENT_CONTENT_STATE"
  | ini_PARSE_DOCUMENT_END_STATE => "ini_PARSE_DOCUMENT_END_STATE"
  | ini_PARSE_SECTION_ENTRY_STATE => "ini_PARSE_SECTION_ENTRY_STATE"
  | ini_PARSE_COMMENT_START_STATE => "ini_PARSE_COMMENT_START_STATE"
  | ini_PARSE_COMMENT_CONTENT_STATE => "ini_PARSE_COMMENT_CONTENT_STATE"
  | ini_PARSE_COMMENT_END_STATE => "ini_PARSE_COMMENT_END_STATE"
  | ini_PARSE_KEY_STATE => "ini_PARSE_KEY_STATE"
  | ini_PARSE_VALUE_STATE => "ini_PARSE_VALUE_STATE"
  | _ => "<unknown parser state>"
  end.

(** The states that the [const] block of [ini_parser_state_t] declares. *)
Definition declared_parser_state (ps : ini_parser_state_t) : bool :=
  match ps with
  | ini_PARSE_SECTION_FIRST_KEY_STATE
  | ini_PARSE_SECTION_KEY_STATE
  | ini_PARSE_SECTION_VALUE_STATE => false
  | _ => true
  end.

(** [func (e *ini_event_t) scalar_style() ini_scalar_style_t]: a conversion
    between two types over [int8]. *)
Definition scalar_style (e : ini_event_t) : Z := e_style e.


(** ** The parser monad: state passing with Go panics *)

Inductive result (A : Type) : Type :=
| Done (a : A)
| Panic (msg : string).
Arguments Done {A} a.
Arguments Panic {A} msg.

Definition M (A : Type) : Type := ini_parser_t -> result (A * ini_parser_t).

Definition ret {A : Type} (a : A) : M A := fun p => Done (a, p).

Definition bind {A B : Type} (m : M A) (f : A -> M B) : M B :=
  fun p => match m p with
           | Done (a, p') => f a p'
           | Panic msg => Panic msg
           end.

Definition panic {A : Type} (msg : string) : M A := fun _ => Panic msg.

Definition get : M ini_parser_t := fun p => Done (p, p).

Definition modify (f : ini_parser_t -> ini_parser_t) : M unit :=
  fun p => Done (tt, f p).

Notation "x <- m ;; k" := (bind m (fun x => k))
  (at level 61, m at next level, right associativity).
Notation "m ;;; k" := (bind m (fun _ => k))
  (at level 61, right associativity).

(** Signed 64-bit wrap-around of Go's [int] arithmetic. *)
Definition wrap64 (z : Z) : Z := (z + 2 ^ 63) mod 2 ^ 64 - 2 ^ 63.

Definition error_type_eq_dec (a b : ini_error_type_t) : {a = b} + {a <> b}.
Proof. decide equality. Defined.

Definition parser_state_eq_dec (a b : ini_parser_state_t) : {a = b} + {a <> b}.
Proof. decide equality. Defined.

Definition error_is (a b : ini_error_type_t) : bool :=
  if error_type_eq_dec a b then true else false.

Definition state_is (a b : ini_parser_state_t) : bool :=
  if parser_state_eq_dec a b then true else false.

(** [for _, v := range bs { name = append(name, v) }]. *)
Definition append_each (name bs : list byte) : list byte :=
  fold_left (fun acc v => acc ++ [v]) bs name.

(** [s[len(s)-1]] on the state stack; [None] is the out-of-range panic. *)
Definition top_state (s : list ini_parser_state_t) : option ini_parser_state_t :=
  match s with
  | [] => None
  | _ => Some (last s ini_PARSE_STREAM_START_STATE)
  end.

(** Result of a block that either leaves the enclosing function through a
    [return] or falls through with its local variables. *)
Inductive flow (A : Type) : Type :=
| Return (b : bool)
| Continue (a : A).
Arguments Return {A} b.
Arguments Continue {A} a.

(** ** The token queue *)

(** Modelled from the spec: [ini_parser_fetch_more_tokens], the scanner entry
    point that parserc.go calls and that is not part of the sources.  The
    spec gives it a pull interface: it makes the next token available in the
    queue, or fails, and a failure is one the tokenizer has recorded as its
    own error.  Here the scanner queues the next token of [scanner_rest];
    when it has none left it records a scanner error and reports failure. *)
Definition ini_parser_fetch_more_tokens (parser : ini_parser_t) : bool * ini_parser_t :=
  if (tokens_head parser <? List.length (tokens parser))%nat then
    (true, set_token_available true parser)
  else
    match scanner_rest parser with
    | t :: rest =>
        (true, set_token_available true
                 (set_scanner_rest rest
                    (set_tokens (tokens parser ++ [t]) parser)))
    | [] => (false, set_error ini_SCANNER_ERROR parser)
    end.

(** Peek the next token in the token queue. *)
Definition peek_token : M (option ini_token_t) :=
  fun parser =>
    let '(ok, parser) :=
      if token_available parser then (true, parser)
      else ini_parser_fetch_more_tokens parser in
    if ok then
      match nth_error (tokens parser) (tokens_head parser) with
      | Some token => Done (Some token, parser)
      | None => Panic "index out of range"
      end
    else Done (None, parser).

(** Remove the next token from the queue (must be called after peek_token). *)
Definition skip_token : M unit :=
  fun parser =>
    let parser := set_token_available false parser in
    let parser := set_tokens_parsed (wrap64 (tokens_parsed parser + 1)) parser in
    match nth_error (tokens parser) (tokens_head parser) with
    | None => Panic "index out of range"
    | Some token =>
        let parser :=
          set_document_end_produced
            (typ_is (typ token) ini_DOCUMENT_END_TOKEN) parser in
        Done (tt, set_tokens_head (S (tokens_head parser)) parser)
    end.

(** Set parser error. *)
Definition ini_parser_set_parser_error (problem : string)
    (problem_mark : ini_mark_t) : M bool :=
  modify (set_error ini_PARSER_ERROR) ;;;
  modify (set_problem problem) ;;;
  modify (set_problem_mark problem_mark) ;;;
  ret false.

Definition ini_parser_set_parser_error_context (context : string)
    (context_mark : ini_mark_t) (problem : string)
    (problem_mark : ini_mark_t) : M bool :=
  modify (set_error ini_PARSER_ERROR) ;;;
  modify (set_context context) ;;;
  modify (set_context_mark context_mark) ;;;
  modify (set_problem problem) ;;;
  modify (set_problem_mark problem_mark) ;;;
  ret false.

(** ** The state machine *)

Section Parser.

(** The tag constants and the scalar classifier that parserc.go refers to;
    their declarations are in a file outside the sources at hand, so the
    development is parametric in them. *)
Variables ini_SECTION_TAG ini_SECTION_INHERIT_TAG ini_NULL_TAG : string.
Variable analyzeTag : string -> string.

Definition ini_parser_process_empty_scalar
    (event : ini_event_t) (mark : ini_mark_t) : M (bool * ini_event_t) :=
  ret (true,
       mk_event ini_SCALAR_EVENT mark mark []
         (list_byte_of_string ini_NULL_TAG) false ini_PLAIN_SCALAR_STYLE).

Definition ini_parser_parse_document_start (event : ini_event_t)
  : M (bool * ini_event_t) :=
  token <- peek_token ;;
  match token with
  | None => ret (false, event)
  | Some token =>
      skip_token ;;;
      if negb (typ_is (typ token) ini_DOCUMENT_START_TOKEN) then
        b <- ini_parser_set_parser_error
               "did not find expected <document-start>" (start_mark token) ;;
        ret (b, event)
      else
        modify (fun parser =>
                  set_states (states parser ++ [ini_PARSE_DOCUMENT_END_STATE])
                    parser) ;;;
        modify (set_state ini_PARSE_SECTION_FIRST_ENTRY_STATE) ;;;
        ret (true,
             mk_event ini_DOCUMENT_START_EVENT (start_mark token)
               (end_mark token) [] [] false 0)
  end.

(** Parse the section: *)
Definition ini_parser_parse_section_entry (event : ini_event_t) (first : bool)
  : M (bool * ini_event_t) :=
  token <- peek_token ;;
  match token with
  | None => ret (false, event)
  | Some token =>
  if typ_is (typ token) ini_DOCUMENT_END_TOKEN then
    parser <- get ;;
    match top_state (states parser) with
    | None => panic "index out of range"
    | Some top =>
        modify (set_state top) ;;;
        modify (set_states (removelast (states parser))) ;;;
        ret (true,
             mk_event ini_DOCUMENT_END_EVENT (start_mark token)
               (end_mark token) [] [] false 0)
    end
  else if first && typ_is (typ token) ini_SECTION_KEY_TOKEN then
    modify (set_state ini_PARSE_SECTION_FIRST_KEY_STATE) ;;;
    ret (true,
         mk_event ini_SECTION_ENTRY_EVENT (start_mark token)
           (start_mark token) (list_byte_of_string "default")
           (list_byte_of_string ini_SECTION_TAG) false 0)
  else if typ_is (typ token) ini_SECTION_START_TOKEN then
    let start_mark_ := start_mark token in
    skip_token ;;;
    token <- peek_token ;;
    match token with
    | None => ret (false, event)
    | Some token =>
    skip_token ;;;
    if typ_is (typ token) ini_SCALAR_TOKEN then
      let section_name := value token in
      let inherit := false in
      token <- peek_token ;;
      match token with
      | None => ret (false, event)
      | Some token =>
      let end_mark_ := end_mark token in
      (* SECTION-INHERIT Token (:) *)
      r <- (if typ_is (typ token) ini_SECTION_INHERIT_TOKEN then
              let inherit := true in
              skip_token ;;;
              let section_name := append_each section_name (value token) in
              token <- peek_token ;;
              match token with
              | None => ret (Return false)
              | Some token =>
              skip_token ;;;
              let section_name := append_each section_name (value token) in
              let end_mark_ := end_mark token in
              if typ_is (typ token) ini_SCALAR_TOKEN then
                modify (set_state ini_PARSE_SECTION_FIRST_KEY_STATE) ;;;
                token <- peek_token ;;
                match token with
                | None => ret (Return false)
                | Some token =>
                    ret (Continue (inherit, section_name, end_mark_, token))
                end
              else
                b <- ini_parser_set_parser_error
                       "did not find expected <scalar>" (start_mark token) ;;
                ret (Return b)
              end
            else ret (Continue (inherit, section_name, end_mark_, token))) ;;
      match r with
      | Return b => ret (b, event)
      | Continue (inherit, section_name, end_mark_, token) =>
        if typ_is (typ token) ini_SECTION_END_TOKEN then
          skip_token ;;;
          modify (set_state ini_PARSE_SECTION_FIRST_KEY_STATE) ;;;
          if inherit then
            ret (true,
                 mk_event ini_SECTION_ENTRY_EVENT start_mark_ end_mark_
                   section_name (list_byte_of_string ini_SECTION_INHERIT_TAG)
                   false (style token))
          else
            ret (true,
                 mk_event ini_SECTION_ENTRY_EVENT start_mark_ end_mark_
                   section_name (list_byte_of_string ini_SECTION_TAG)
                   false (style token))
        else
          b <- ini_parser_set_parser_error
                 "did not find expected <section-end>" (start_mark token) ;;
          ret (b, event)
      end
      end
    else
      b <- ini_parser_set_parser_error
             "did not find expected <scalar>" (start_mark token) ;;
      ret (b, event)
    end
  else if typ_is (typ token) ini_SECTION_END_TOKEN then
    skip_token ;;;
    token <- peek_token ;;
    match token with
    | None => ret (false, event)
    | Some token =>
    skip_token ;;;
    if typ_is (typ token) ini_SECTION_KEY_TOKEN then
      let start_mark_ := start_mark token in
      token <- peek_token ;;
      match token with
      | None => ret (false, event)
      | Some token =>
        let end_mark_ := end_mark token in
        skip_token ;;;
        modify (set_state ini_PARSE_SECTION_VALUE_STATE) ;;;
        let tag := analyzeTag (string_of_list_byte (value token)) in
        ret (true,
             mk_event ini_SCALAR_EVENT start_mark_ end_mark_ (value token)
               (list_byte_of_string tag) false 0)
      end
    else
      b <- ini_parser_set_parser_error
             "did not find expected <section-key>" (start_mark token) ;;
      ret (b, event)
    end
  else
    b <- ini_parser_set_parser_error
           "did not find expected <section-start> or <section-key>"
           (start_mark token) ;;
    ret (b, event)
  end.

Definition ini_parser_parse_section_key (event : ini_event_t) (first : bool)
  : M (bool * ini_event_t) :=
  token <- peek_token ;;
  match token with
  | None => ret (false, event)
  | Some token =>
  if typ_is (typ token) ini_SECTION_KEY_TOKEN then
    skip_token ;;;
    let start_mark_ := start_mark token in
    token <- peek_token ;;
    match token with
    | None => ret (false, event)
    | Some token =>
      let end_mark_ := end_mark token in
      if typ_is (typ token) ini_SCALAR_TOKEN then
        skip_token ;;;
        modify (set_state ini_PARSE_SECTION_VALUE_STATE) ;;;
        let tag := analyzeTag (string_of_list_byte (value token)) in
        ret (true,
             mk_event ini_SCALAR_EVENT start_mark_ end_mark_ (value token)
               (list_byte_of_string tag) false (style token))
      else
        b <- ini_parser_set_parser_error
               "did not find expected <scalar>" (start_mark token) ;;
        ret (b, event)
    end
  else
    modify (set_state ini_PARSE_SECTION_ENTRY_STATE) ;;;
    ret (true,
         mk_event ini_SECTION_ENTRY_EVENT (start_mark token) (end_mark token)
           [] [] false 0)
  end.

(** Parse the productions:
    properties ::= (KEY = VALUE) *)
Definition ini_parser_parse_section_value (event : ini_event_t)
  : M (bool * ini_event_t) :=
  token <- peek_token ;;
  match token with
  | None => ret (false, event)
  | Some token =>
  if typ_is (typ token) ini_SECTION_VALUE_TOKEN then
    skip_token ;;;
    let start_mark_ := start_mark token in
    token <- peek_token ;;
    match token with
    | None => ret (false, event)
    | Some token =>
      let end_mark_ := end_mark token in
      if typ_is (typ token) ini_SCALAR_TOKEN then
        skip_token ;;;
        modify (set_state ini_PARSE_SECTION_KEY_STATE) ;;;
        let tag := analyzeTag (string_of_list_byte (value token)) in
        ret (true,
             mk_event ini_SCALAR_EVENT start_mark_ end_mark_ (value token)
               (list_byte_of_string tag) false (style token))
      else
        modify (set_state ini_PARSE_SECTION_KEY_STATE) ;;;
        ini_parser_process_empty_scalar event (start_mark token)
    end
  else
    b <- ini_parser_set_parser_error
           "did not find expected <section-value>" (start_mark token) ;;
    ret (b, event)
  end.

(** State dispatcher. *)
Definition ini_parser_state_machine (event : ini_event_t)
  : M (bool * ini_event_t) :=
  parser <- get ;;
  match state parser with
  | ini_PARSE_DOCUMENT_START_STATE =>
      ini_parser_parse_document_start event
  | ini_PARSE_SECTION_FIRST_ENTRY_STATE =>
      ini_parser_parse_section_entry event true
  | ini_PARSE_SECTION_ENTRY_STATE =>
      ini_parser_parse_section_entry event false
  | ini_PARSE_SECTION_FIRST_KEY_STATE =>
      ini_parser_parse_section_key event true
  | ini_PARSE_SECTION_KEY_STATE =>
      ini_parser_parse_section_key event false
  | ini_PARSE_SECTION_VALUE_STATE =>
      ini_parser_parse_section_value event
  | _ => panic "invalid parser state"
  end.

(** Get the next event. *)
Definition ini_parser_parse (event : ini_event_t) : M (bool * ini_event_t) :=
  (* Erase the event object. *)
  let event := empty_event in
  parser <- get ;;
  (* No events after the end of the stream or error. *)
  if document_end_produced parser
     || negb (error_is (error parser) ini_NO_ERROR)
     || state_is (state parser) ini_PARSE_DOCUMENT_END_STATE
  then ret (true, event)
  else
    (* Generate the next event. *)
    ini_parser_state_machine event.

End Parser.

(** ** Observations on a parser *)

(** The tokens the parser has not consumed yet: the rest of the queue, then
    what the scanner still has to deliver. *)
Definition upcoming (p : ini_parser_t) : list ini_token_t :=
  skipn (tokens_head p) (tokens p) ++ scanner_rest p.

(** Queue invariant: the head is inside the queue or just behind it, and it
    is inside when a token is marked available. *)
Definition wf (p : ini_parser_t) : Prop :=
  (tokens_head p <= List.length (tokens p))%nat /\
  (token_available p = true -> (tokens_head p < List.length (tokens p))%nat).

(** The members other than the token queue. *)
Definition control (p : ini_parser_t) :=
  (error p, problem p, problem_mark p, context p, context_mark p,
   state p, states p).

(** The position in the token stream. *)
Definition position (p : ini_parser_t) :=
  (tokens_head p, tokens_parsed p, document_end_produced p).

(** Modelled from the spec: the initialisation of a parser, which is not
    part of the sources.  The spec names Document-Start as the initial state;
    the other members have their Go zero value, and the scanner is about to
    deliver the token stream [toks]. *)
Definition initial_parser (toks : list ini_token_t) : ini_parser_t :=
  mk_parser ini_NO_ERROR "" zero_mark "" zero_mark false [] 0 0 false
    ini_PARSE_DOCUMENT_START_STATE [] toks.

(** ** Vocabulary of the properties *)

(** Weakest precondition for the parser monad.  [wp m Q p]: run from [p],
    the computation [m] does not panic and its result and final parser
    satisfy [Q]. *)
Definition wp {A : Type} (m : M A) (Q : A -> ini_parser_t -> Prop)
    (p : ini_parser_t) : Prop :=
  match m p with
  | Done (a, p') => Q a p'
  | Panic _ => False
  end.

(** The driver's gate: the parser delivers no further events. *)
Definition halted (p : ini_parser_t) : Prop :=
  document_end_produced p = true \/ error p <> ini_NO_ERROR \/
  state p = ini_PARSE_DOCUMENT_END_STATE.

(** A parser that is ready to produce an event in state [s]. *)
Definition live_in (s : ini_parser_state_t) (p : ini_parser_t) : Prop :=
  wf p /\ document_end_produced p = false /\ error p = ini_NO_ERROR /\
  state p = s.

(** The boundary Section-Entry event: the marks are those of the lookahead
    token, value and tag are empty. *)
Definition boundary_event (t : ini_token_t) : ini_event_t :=
  mk_event ini_SECTION_ENTRY_EVENT (start_mark t) (end_mark t) [] [] false 0.

(** The state a section-entry call starts from. *)
Definition entry_state (first : bool) : ini_parser_state_t :=
  if first then ini_PARSE_SECTION_FIRST_ENTRY_STATE
  else ini_PARSE_SECTION_ENTRY_STATE.

(** The stack of return points that goes with each state of the grammar. *)
Definition stack_ok (p : ini_parser_t) : Prop :=
  match state p with
  | ini_PARSE_DOCUMENT_START_STATE => states p = []
  | ini_PARSE_SECTION_FIRST_ENTRY_STATE
  | ini_PARSE_SECTION_ENTRY_STATE
  | ini_PARSE_SECTION_FIRST_KEY_STATE
  | ini_PARSE_SECTION_KEY_STATE
  | ini_PARSE_SECTION_VALUE_STATE => states p = [ini_PARSE_DOCUMENT_END_STATE]
  | _ => False
  end.

(** Invariant of the parsers that calls of the driver reach. *)
Definition inv (p : ini_parser_t) : Prop :=
  wf p /\ (halted p \/ stack_ok p).

(** What one call of the driver on a parser that is not halted ensures. *)
Definition call_post (r : bool * ini_event_t) (p' : ini_parser_t) : Prop :=
  inv p' /\
  (fst r = false -> error p' <> ini_NO_ERROR /\ snd r = empty_event) /\
  (fst r = true -> error p' = ini_NO_ERROR) /\
  (e_typ (snd r) = ini_DOCUMENT_END_EVENT ->
   state p' = ini_PARSE_DOCUMENT_END_STATE).

(** The driver with its tags and classifier fixed. *)
Definition driver : Type := ini_event_t -> M (bool * ini_event_t).

(** Successive calls of the driver, one for each event object handed in. *)
Fixpoint parse_all (parse : driver) (evs : list ini_event_t) (p : ini_parser_t)
  : result (list (bool * ini_event_t) * ini_parser_t) :=
  match evs with
  | [] => Done ([], p)
  | ev :: evs' =>
      match parse ev p with
      | Done (r, p') =>
          match parse_all parse evs' p' with
          | Done (rs, p'') => Done (r :: rs, p'')
          | Panic msg => Panic msg
          end
      | Panic msg => Panic msg
      end
  end.

(** The parsers that calls of the driver reach from the initial parser of a
    token stream. *)
Inductive reachable (parse : driver) : ini_parser_t -> Prop :=
| reach_initial (toks : list ini_token_t) :
    reachable parse (initial_parser toks)
| reach_call (p : ini_parser_t) (ev : ini_event_t) (r : bool * ini_event_t)
    (p' : ini_parser_t) :
    reachable parse p -> parse ev p = Done (r, p') -> reachable parse p'.

(** The operations on a parser instance: the two of the token source and
    the call of the driver. *)
Inductive parser_op : Type :=
| op_peek
| op_skip
| op_parse (ev : ini_event_t).

Definition run_op (parse : driver) (o : parser_op) (p : ini_parser_t)
  : result ini_parser_t :=
  match o with
  | op_peek =>
      match peek_token p with
      | Done (_, p') => Done p'
      | Panic msg => Panic msg
      end
  | op_skip =>
      match skip_token p with
      | Done (_, p') => Done p'
      | Panic msg => Panic msg
      end
  | op_parse ev =>
      match parse ev p with
      | Done (_, p') => Done p'
      | Panic msg => Panic msg
      end
  end.

Fixpoint run_ops (parse : driver) (os : list parser_op) (p : ini_parser_t)
  : result ini_parser_t :=
  match os with
  | [] => Done p
  | o :: os' =>
      match run_op parse o p with
      | Done p' => run_ops parse os' p'
      | Panic msg => Panic msg
      end
  end.

Definition is_document_end (t : ini_token_t) : bool :=
  typ_is (typ t) ini_DOCUMENT_END_TOKEN.

(** The token source's contract on the end of the stream: the document-end
    token terminates the sequence, so no token of another kind comes after
    one. *)
Fixpoint document_end_is_last (ts : list ini_token_t) : bool :=
  match ts with
  | [] => true
  | t :: ts' =>
      if is_document_end t then forallb is_document_end ts'
      else document_end_is_last ts'
  end.



(** The states from which the dispatcher calls a transition function. *)
Definition dispatched (s : ini_parser_state_t) : bool :=
  match s with
  | ini_PARSE_DOCUMENT_START_STATE
  | ini_PARSE_SECTION_FIRST_ENTRY_STATE
  | ini_PARSE_SECTION_ENTRY_STATE
  | ini_PARSE_SECTION_FIRST_KEY_STATE
  | ini_PARSE_SECTION_KEY_STATE
  | ini_PARSE_SECTION_VALUE_STATE => true
  | _ => false
  end.

(** The messages that parserc.go passes to [ini_parser_set_parser_error]. *)
Definition parser_problems : list string :=
  [ "did not find expected <document-start>";
    "did not find expected <scalar>";
    "did not find expected <section-end>";
    "did not find expected <section-key>";
    "did not find expected <section-start> or <section-key>";
    "did not find expected <section-value>" ].

(** The kinds of event that the transition functions assign. *)
Definition emitted_kinds : list ini_event_type_t :=
  [ ini_DOCUMENT_START_EVENT; ini_DOCUMENT_END_EVENT;
    ini_SECTION_ENTRY_EVENT; ini_SCALAR_EVENT ].

(** How many calls a state can take before one consumes a token. *)
Definition rank (s : ini_parser_state_t) : nat :=
  match s with
  | ini_PARSE_SECTION_FIRST_ENTRY_STATE => 2
  | ini_PARSE_SECTION_ENTRY_STATE => 0
  | _ => 1
  end.

(** A bound on the calls a parser still answers with an event: two for each
    token it has not consumed, and the rank of its state. *)
Definition calls_left (p : ini_parser_t) : nat :=
  2 * List.length (upcoming p) + rank (state p).


(** The state stack holds at most the return point of the document. *)
Definition stack_bounded (p : ini_parser_t) : Prop :=
  states p = [] \/ states p = [ini_PARSE_DOCUMENT_END_STATE].

(** The errors a parser can hold: none, the scanner's, or a Parser error
    with one of the messages of parserc.go. *)
Definition error_known (p : ini_parser_t) : Prop :=
  error p = ini_NO_ERROR \/ error p = ini_SCANNER_ERROR \/
  (error p = ini_PARSER_ERROR /\ In (problem p) parser_problems).

(** The parser is past the start of the document. *)
Definition past_start (p : ini_parser_t) : Prop :=
  halted p \/ state p <> ini_PARSE_DOCUMENT_START_STATE.

(** What one call of the driver does to a parser [p] that is not halted. *)
Definition call_facts (p : ini_parser_t) (r : bool * ini_event_t)
    (p' : ini_parser_t) : Prop :=
  stack_bounded p' /\
  error_known p' /\
  (fst r = false -> snd r = empty_event) /\
  (fst r = true -> In (e_typ (snd r)) emitted_kinds) /\
  (exists k, upcoming p' = skipn k (upcoming p) /\
             tokens_head p' = (k + tokens_head p)%nat) /\
  (halted p' \/ (calls_left p' < calls_left p)%nat) /\
  (e_typ (snd r) = ini_DOCUMENT_START_EVENT ->
   state p = ini_PARSE_DOCUMENT_START_STATE) /\
  past_start p'.


(** ** Well-formed token streams and their events *)

(** A property: the section-key token, the scalar with the key's text, the
    value marker and, when there is one, the scalar with the value. *)
Record property : Type := mk_property {
  pr_key : ini_token_t;
  pr_name : ini_token_t;
  pr_marker : ini_token_t;
  pr_value : option ini_token_t
}.

Definition property_ok (pr : property) : bool :=
  typ_is (typ (pr_key pr)) ini_SECTION_KEY_TOKEN
  && typ_is (typ (pr_name pr)) ini_SCALAR_TOKEN
  && typ_is (typ (pr_marker pr)) ini_SECTION_VALUE_TOKEN
  && match pr_value pr with
     | Some v => typ_is (typ v) ini_SCALAR_TOKEN
     | None => true
     end.

Definition property_tokens (pr : property) : list ini_token_t :=
  pr_key pr :: pr_name pr :: pr_marker pr ::
  match pr_value pr with
  | Some v => [v]
  | None => []
  end.

(** A section: its header, with or without the inheritance clause (marker
    and parent name), and its properties. *)
Record section : Type := mk_section {
  sec_start : ini_token_t;
  sec_name : ini_token_t;
  sec_inherit : option (ini_token_t * ini_token_t);
  sec_end : ini_token_t;
  sec_properties : list property
}.

Definition section_ok (s : section) : bool :=
  typ_is (typ (sec_start s)) ini_SECTION_START_TOKEN
  && typ_is (typ (sec_name s)) ini_SCALAR_TOKEN
  && match sec_inherit s with
     | Some (marker, parent) =>
         typ_is (typ marker) ini_SECTION_INHERIT_TOKEN
         && typ_is (typ parent) ini_SCALAR_TOKEN
     | None => true
     end
  && typ_is (typ (sec_end s)) ini_SECTION_END_TOKEN
  && forallb property_ok (sec_properties s).

Definition section_tokens (s : section) : list ini_token_t :=
  sec_start s :: sec_name s ::
  match sec_inherit s with
  | Some (marker, parent) => [marker; parent]
  | None => []
  end ++
  sec_end s :: List.concat (map property_tokens (sec_properties s)).

(** A document: the framing tokens, the properties before the first header
    and the sections. *)
Record document : Type := mk_document {
  doc_start : ini_token_t;
  doc_bare : list property;
  doc_sections : list section;
  doc_end : ini_token_t
}.

Definition document_ok (d : document) : bool :=
  typ_is (typ (doc_start d)) ini_DOCUMENT_START_TOKEN
  && forallb property_ok (doc_bare d)
  && forallb section_ok (doc_sections d)
  && typ_is (typ (doc_end d)) ini_DOCUMENT_END_TOKEN.

Definition document_tokens (d : document) : list ini_token_t :=
  doc_start d ::
  List.concat (map property_tokens (doc_bare d)) ++
  List.concat (map section_tokens (doc_sections d)) ++
  [doc_end d].

Section DocumentEvents.

Variables section_tag inherit_tag null_tag : string.
Variable classify : string -> string.

(** The Scalar event of a scalar token [v], starting with the token [from]. *)
Definition scalar_event (from v : ini_token_t) : ini_event_t :=
  mk_event ini_SCALAR_EVENT (start_mark from) (end_mark v) (value v)
    (list_byte_of_string (classify (string_of_list_byte (value v))))
    false (style v).

(** The Scalar event that stands for a missing value in front of [next]. *)
Definition empty_scalar_event (next : ini_token_t) : ini_event_t :=
  mk_event ini_SCALAR_EVENT (start_mark next) (start_mark next) []
    (list_byte_of_string null_tag) false ini_PLAIN_SCALAR_STYLE.

(** The events of properties that are followed by the token [following]. *)
Fixpoint properties_events (prs : list property) (following : ini_token_t)
  : list ini_event_t :=
  match prs with
  | [] => []
  | pr :: rest =>
      let next := match rest with
                  | [] => following
                  | q :: _ => pr_key q
                  end in
      scalar_event (pr_key pr) (pr_name pr) ::
      match pr_value pr with
      | Some v => scalar_event (pr_marker pr) v
      | None => empty_scalar_event next
      end ::
      properties_events rest following
  end.

Definition header_event (s : section) : ini_event_t :=
  match sec_inherit s with
  | Some (marker, parent) =>
      mk_event ini_SECTION_ENTRY_EVENT (start_mark (sec_start s))
        (end_mark parent)
        (value (sec_name s) ++ value marker ++ value parent)
        (list_byte_of_string inherit_tag) false (style (sec_end s))
  | None =>
      mk_event ini_SECTION_ENTRY_EVENT (start_mark (sec_start s))
        (end_mark (sec_end s)) (value (sec_name s))
        (list_byte_of_string section_tag) false (style (sec_end s))
  end.

(** The events of a section followed by [following]: the header, the
    properties, and the boundary event on [following]. *)
Definition section_events (s : section) (following : ini_token_t)
  : list ini_event_t :=
  header_event s ::
  properties_events (sec_properties s) following ++
  [mk_event ini_SECTION_ENTRY_EVENT (start_mark following)
     (end_mark following) [] [] false 0].

Fixpoint sections_events (ss : list section) (following : ini_token_t)
  : list ini_event_t :=
  match ss with
  | [] => []
  | s :: rest =>
      let next := match rest with
                  | [] => following
                  | s' :: _ => sec_start s'
                  end in
      section_events s next ++ sections_events rest following
  end.

(** The events of the properties before the first header: none when there
    are no such properties, else the synthetic default section, the
    properties and the boundary event. *)
Definition bare_events (prs : list property) (following : ini_token_t)
  : list ini_event_t :=
  match prs with
  | [] => []
  | pr :: _ =>
      mk_event ini_SECTION_ENTRY_EVENT (start_mark (pr_key pr))
        (start_mark (pr_key pr)) (list_byte_of_string "default")
        (list_byte_of_string section_tag) false 0 ::
      properties_events prs following ++
      [mk_event ini_SECTION_ENTRY_EVENT (start_mark following)
         (end_mark following) [] [] false 0]
  end.

Definition document_events (d : document) : list ini_event_t :=
  let after_bare := match doc_sections d with
                    | [] => doc_end d
                    | s :: _ => sec_start s
                    end in
  mk_event ini_DOCUMENT_START_EVENT (start_mark (doc_start d))
    (end_mark (doc_start d)) [] [] false 0 ::
  bare_events (doc_bare d) after_bare ++
  sections_events (doc_sections d) (doc_end d) ++
  [mk_event ini_DOCUMENT_END_EVENT (start_mark (doc_end d))
     (end_mark (doc_end d)) [] [] false 0].

End DocumentEvents.


(** The state a section-key call starts from. *)
Definition key_state (first : bool) : ini_parser_state_t :=
  if first then ini_PARSE_SECTION_FIRST_KEY_STATE
  else ini_PARSE_SECTION_KEY_STATE.

(** [runs parse p es p']: as many calls as [es] has events, on whatever event
    objects, all succeed, deliver the events [es] in order and take the
    parser from [p] to [p']. *)
Definition runs (parse : driver) (p : ini_parser_t) (es : list ini_event_t)
    (p' : ini_parser_t) : Prop :=
  forall evs,
    List.length evs = List.length es ->
    parse_all parse evs p = Done (map (fun e => (true, e)) es, p').


(** ** Concrete token streams *)

Module Sample.

(** Tags and a classifier to run the parser with. *)
Definition section_tag : string := "section".
Definition inherit_tag : string := "inherit".
Definition null_tag : string := "null".
Definition classify (s : string) : string := "str".

Definition parse := ini_parser_parse section_tag inherit_tag null_tag classify.
Definition parse_all := parse_all parse.
Definition run_ops := run_ops parse.

(** A token of kind [k] on line 0 from column [a] to column [b]. *)
Definition tok (k : ini_token_type_t) (a b : Z) (v : string) : ini_token_t :=
  mk_token k (mk_mark a 0 a) (mk_mark b 0 b) (list_byte_of_string v) 0.

(** A parser in state [s], past the document start, reading [toks]. *)
Definition in_state (s : ini_parser_state_t) (toks : list ini_token_t)
  : ini_parser_t :=
  mk_parser ini_NO_ERROR "" zero_mark "" zero_mark false [] 0 0 false
    s [ini_PARSE_DOCUMENT_END_STATE] toks.

(** What a run shows of each call: status, kind of event, value. *)
Definition summary (r : result (list (bool * ini_event_t) * ini_parser_t))
  : list (bool * ini_event_type_t * list byte) :=
  match r with
  | Done (rs, _) => map (fun x => (fst x, e_typ (snd x), e_value (snd x))) rs
  | Panic _ => []
  end.

(** The parser a run ends in. *)
Definition outcome (r : result ini_parser_t) : ini_parser_t :=
  match r with
  | Done p => p
  | Panic _ => initial_parser []
  end.

(** The header [[s]] followed by the end of the document. *)
Definition empty_section_stream : list ini_token_t :=
  [ tok ini_DOCUMENT_START_TOKEN 0 0 "";
    tok ini_SECTION_START_TOKEN 0 1 "[";
    tok ini_SCALAR_TOKEN 1 2 "s";
    tok ini_SECTION_END_TOKEN 2 3 "]";
    tok ini_DOCUMENT_END_TOKEN 3 3 "" ].

(** The unterminated header [[section], closed by the end of the document. *)
Definition unterminated_stream : list ini_token_t :=
  [ tok ini_DOCUMENT_START_TOKEN 0 0 "";
    tok ini_SECTION_START_TOKEN 0 1 "[";
    tok ini_SCALAR_TOKEN 1 8 "section";
    tok ini_DOCUMENT_END_TOKEN 8 8 "" ].

(** A bare key and value, with no section header. *)
Definition bare_key_stream : list ini_token_t :=
  [ tok ini_DOCUMENT_START_TOKEN 0 0 "";
    tok ini_SECTION_KEY_TOKEN 0 0 "";
    tok ini_SCALAR_TOKEN 0 1 "k";
    tok ini_SECTION_VALUE_TOKEN 1 2 "=";
    tok ini_SCALAR_TOKEN 2 3 "v";
    tok ini_DOCUMENT_END_TOKEN 3 3 "" ].

(** An empty document: nothing but the two framing tokens. *)
Definition framing_stream : list ini_token_t :=
  [ tok ini_DOCUMENT_START_TOKEN 0 0 ""; tok ini_DOCUMENT_END_TOKEN 0 0 "" ].

(** The Go zero value of [ini_parser_t], reading [toks]. *)
Definition zero_parser (toks : list ini_token_t) : ini_parser_t :=
  mk_parser ini_NO_ERROR "" zero_mark "" zero_mark false [] 0 0 false
    ini_PARSE_STREAM_START_STATE [] toks.

(** A parser in state [s] whose state stack is empty. *)
Definition in_state_no_stack (s : ini_parser_state_t) (toks : list ini_token_t)
  : ini_parser_t :=
  mk_parser ini_NO_ERROR "" zero_mark "" zero_mark false [] 0 0 false
    s [] toks.

(** A document with a property before the first header, a section that
    inherits and holds a key without value, and an empty section. *)
Definition sample_document : document :=
  mk_document
    (tok ini_DOCUMENT_START_TOKEN 0 0 "")
    [ mk_property (tok ini_SECTION_KEY_TOKEN 0 0 "") (tok ini_SCALAR_TOKEN 0 1 "a")
        (tok ini_SECTION_VALUE_TOKEN 1 2 "=") (Some (tok ini_SCALAR_TOKEN 2 3 "1")) ]
    [ mk_section (tok ini_SECTION_START_TOKEN 4 5 "[")
        (tok ini_SCALAR_TOKEN 5 10 "child")
        (Some (tok ini_SECTION_INHERIT_TOKEN 10 11 ":",
               tok ini_SCALAR_TOKEN 11 17 "parent"))
        (tok ini_SECTION_END_TOKEN 17 18 "]")
        [ mk_property (tok ini_SECTION_KEY_TOKEN 19 19 "")
            (tok ini_SCALAR_TOKEN 19 20 "k")
            (tok ini_SECTION_VALUE_TOKEN 20 21 "=") None ];
      mk_section (tok ini_SECTION_START_TOKEN 22 23 "[")
        (tok ini_SCALAR_TOKEN 23 24 "s") None
        (tok ini_SECTION_END_TOKEN 24 25 "]") [] ]
    (tok ini_DOCUMENT_END_TOKEN 26 26 "").


End Sample.

(** ** The token queue: peek and skip *)

Lemma nth_error_skipn_cons {A : Type} (l : list A) (n : nat) (x : A) (r : list A) :
  skipn n l = x :: r -> nth_error l n = Some x.
Proof.
  revert n; induction l as [|a l IH]; intros [|n] H; simpl in *;
    try discriminate.
  - now inversion H.
  - now apply IH.
Qed.

Lemma skipn_S_of_cons {A : Type} (l : list A) (n : nat) (x : A) (r : list A) :
  skipn n l = x :: r -> skipn (S n) l = r.
Proof.
  revert n; induction l as [|a l IH]; intros [|n] H; simpl in *;
    try discriminate.
  - now inversion H.
  - now apply IH.
Qed.

Lemma skipn_in_range {A : Type} (l : list A) (n : nat) :
  (n < List.length l)%nat -> exists x r, skipn n l = x :: r.
Proof.
  revert n; induction l as [|a l IH]; intros n H; simpl in *; [lia|].
  destruct n as [|n]; simpl; [now eauto|]. apply IH; lia.
Qed.

Lemma skipn_at_end {A : Type} (l : list A) (n : nat) :
  (List.length l <= n)%nat -> skipn n l = [].
Proof. apply skipn_all2. Qed.

(** A successful peek returns the first upcoming token and changes nothing
    but the bookkeeping of the queue. *)
Lemma peek_token_cons (p : ini_parser_t) (t : ini_token_t) (ts : list ini_token_t) :
  wf p -> upcoming p = t :: ts ->
  exists p1,
    peek_token p = Done (Some t, p1) /\
    wf p1 /\ token_available p1 = true /\ upcoming p1 = t :: ts /\
    control p1 = control p /\ position p1 = position p.
Proof.
  intros [Hle Hav] Hup. unfold peek_token, upcoming in *.
  destruct (token_available p) eqn:Eav.
  - specialize (Hav eq_refl).
    destruct (skipn_in_range (tokens p) (tokens_head p) Hav) as (x & r & Hs).
    rewrite Hs in Hup. simpl in Hup. inversion Hup; subst x.
    rewrite (nth_error_skipn_cons _ _ _ _ Hs).
    exists p. repeat split; auto. rewrite Hs; simpl; now f_equal.
  - unfold ini_parser_fetch_more_tokens.
    destruct (tokens_head p <? List.length (tokens p))%nat eqn:Elt.
    + apply Nat.ltb_lt in Elt.
      destruct (skipn_in_range (tokens p) (tokens_head p) Elt) as (x & r & Hs).
      rewrite Hs in Hup. simpl in Hup. inversion Hup; subst x.
      cbn [tokens tokens_head set_token_available].
      rewrite (nth_error_skipn_cons _ _ _ _ Hs).
      eexists; split; [reflexivity|].
      unfold wf; cbn. repeat split; auto. rewrite Hs; simpl; now f_equal.
    + apply Nat.ltb_ge in Elt.
      assert (Hh : tokens_head p = List.length (tokens p)) by lia.
      rewrite (skipn_at_end _ _ Elt) in Hup. simpl in Hup.
      rewrite Hup.
      cbn [tokens tokens_head set_token_available set_scanner_rest set_tokens].
      rewrite Hh, nth_error_app2, Nat.sub_diag by lia. simpl.
      eexists; split; [reflexivity|].
      unfold wf; cbn. rewrite length_app, Hh; simpl.
      repeat split; try lia.
      rewrite skipn_app, Nat.sub_diag, skipn_all; reflexivity.
Qed.

(** When no token is left the scanner fails, and it records its error. *)
Lemma peek_token_nil (p : ini_parser_t) :
  wf p -> upcoming p = [] ->
  peek_token p = Done (None, set_error ini_SCANNER_ERROR p).
Proof.
  intros [Hle Hav] Hup. unfold peek_token, upcoming in *.
  apply app_eq_nil in Hup. destruct Hup as [Hs Hr].
  assert (Hge : (List.length (tokens p) <= tokens_head p)%nat).
  { destruct (Nat.lt_ge_cases (tokens_head p) (List.length (tokens p)))
      as [Hlt|]; auto.
    destruct (skipn_in_range _ _ Hlt) as (x & r & Hx). congruence. }
  destruct (token_available p) eqn:Eav.
  - specialize (Hav eq_refl). lia.
  - unfold ini_parser_fetch_more_tokens.
    apply Nat.ltb_ge in Hge. rewrite Hge, Hr. reflexivity.
Qed.

(** Skipping after a peek removes the first upcoming token; the flag
    [document_end_produced] is overwritten with the kind test. *)
Lemma skip_token_cons (p : ini_parser_t) (t : ini_token_t) (ts : list ini_token_t) :
  wf p -> token_available p = true -> upcoming p = t :: ts ->
  exists p1,
    skip_token p = Done (tt, p1) /\
    wf p1 /\ token_available p1 = false /\ upcoming p1 = ts /\
    control p1 = control p /\
    position p1 = (S (tokens_head p), wrap64 (tokens_parsed p + 1),
                   typ_is (typ t) ini_DOCUMENT_END_TOKEN).
Proof.
  intros [Hle Hav] Eav Hup. specialize (Hav Eav).
  unfold skip_token, upcoming in *.
  destruct (skipn_in_range (tokens p) (tokens_head p) Hav) as (x & r & Hs).
  rewrite Hs in Hup. simpl in Hup. inversion Hup; subst x.
  cbn [tokens tokens_head set_token_available set_tokens_parsed].
  rewrite (nth_error_skipn_cons _ _ _ _ Hs).
  eexists; split; [reflexivity|].
  pose proof (skipn_S_of_cons _ _ _ _ Hs) as Hs'.
  unfold wf, control, position;
    cbn [tokens tokens_head token_available scanner_rest error problem
         problem_mark context context_mark state states tokens_parsed
         document_end_produced set_tokens_head set_document_end_produced
         set_tokens_parsed set_token_available].
  rewrite Hs'. repeat split; auto; try lia; discriminate.
Qed.

Lemma typ_is_true (a b : ini_token_type_t) : typ_is a b = true <-> a = b.
Proof.
  unfold typ_is; destruct (token_type_eq_dec a b); split; congruence.
Qed.

Lemma typ_is_false (a b : ini_token_type_t) : typ_is a b = false <-> a <> b.
Proof.
  unfold typ_is; destruct (token_type_eq_dec a b); split; congruence.
Qed.

Lemma typ_is_same (a : ini_token_type_t) : typ_is a a = true.
Proof. now apply typ_is_true. Qed.

Lemma append_each_app (name bs : list byte) : append_each name bs = name ++ bs.
Proof.
  unfold append_each. revert name.
  induction bs as [|b bs IH]; intros name; simpl.
  - now rewrite app_nil_r.
  - rewrite IH, <- app_assoc. reflexivity.
Qed.

(** ** Weakest preconditions: rules *)

Lemma wp_done {A : Type} (m : M A) (Q : A -> ini_parser_t -> Prop) (p : ini_parser_t) :
  wp m Q p -> exists a p', m p = Done (a, p') /\ Q a p'.
Proof.
  unfold wp. destruct (m p) as [[a p']|msg]; [eauto | tauto].
Qed.

Lemma wp_ret {A : Type} (a : A) (Q : A -> ini_parser_t -> Prop) (p : ini_parser_t) :
  Q a p -> wp (ret a) Q p.
Proof. exact (fun H => H). Qed.

Lemma wp_bind {A B : Type} (m : M A) (f : A -> M B)
    (Q : B -> ini_parser_t -> Prop) (p : ini_parser_t) :
  wp m (fun a p' => wp (f a) Q p') p -> wp (bind m f) Q p.
Proof.
  unfold wp, bind. destruct (m p) as [[a p']|msg]; auto.
Qed.

Lemma wp_get (Q : ini_parser_t -> ini_parser_t -> Prop) (p : ini_parser_t) :
  Q p p -> wp get Q p.
Proof. exact (fun H => H). Qed.

Lemma wp_modify (f : ini_parser_t -> ini_parser_t)
    (Q : unit -> ini_parser_t -> Prop) (p : ini_parser_t) :
  Q tt (f p) -> wp (modify f) Q p.
Proof. exact (fun H => H). Qed.

(** Peek, by cases on the upcoming tokens. *)
Lemma wp_peek (Q : option ini_token_t -> ini_parser_t -> Prop)
    (p : ini_parser_t) (l : list ini_token_t) :
  wf p -> upcoming p = l ->
  match l with
  | [] => Q None (set_error ini_SCANNER_ERROR p)
  | t :: ts =>
      forall p1, wf p1 -> token_available p1 = true ->
                 upcoming p1 = t :: ts ->
                 control p1 = control p -> position p1 = position p ->
                 Q (Some t) p1
  end ->
  wp peek_token Q p.
Proof.
  intros Hwf Hup HQ. unfold wp. destruct l as [|t ts].
  - now rewrite (peek_token_nil p Hwf Hup).
  - destruct (peek_token_cons p t ts Hwf Hup) as (p1 & E & H1 & H2 & H3 & H4 & H5).
    rewrite E. now apply HQ.
Qed.

(** Skip, after a successful peek. *)
Lemma wp_skip (Q : unit -> ini_parser_t -> Prop)
    (p : ini_parser_t) (t : ini_token_t) (ts : list ini_token_t) :
  wf p -> token_available p = true -> upcoming p = t :: ts ->
  (forall p1, wf p1 -> token_available p1 = false -> upcoming p1 = ts ->
              control p1 = control p ->
              position p1 = (S (tokens_head p), wrap64 (tokens_parsed p + 1),
                             typ_is (typ t) ini_DOCUMENT_END_TOKEN) ->
              Q tt p1) ->
  wp skip_token Q p.
Proof.
  intros Hwf Hav Hup HQ. unfold wp.
  destruct (skip_token_cons p t ts Hwf Hav Hup) as (p1 & E & H1 & H2 & H3 & H4 & H5).
  rewrite E. now apply HQ.
Qed.

Lemma wp_set_parser_error (msg : string) (m : ini_mark_t)
    (Q : bool -> ini_parser_t -> Prop) (p : ini_parser_t) :
  Q false (set_problem_mark m (set_problem msg (set_error ini_PARSER_ERROR p))) ->
  wp (ini_parser_set_parser_error msg m) Q p.
Proof. exact (fun H => H). Qed.

(** Symbolic execution of one monadic step. *)
Ltac wp_peek_step :=
  match goal with
  | Hwf : wf ?q, Hup : upcoming ?q = ?l |- wp peek_token _ ?g =>
      apply (wp_peek _ g l Hwf Hup)
  end.

Ltac wp_skip_step :=
  match goal with
  | Hwf : wf ?q, Hav : token_available ?q = true, Hup : upcoming ?q = ?t :: ?ts
    |- wp skip_token _ ?g =>
      apply (wp_skip _ g t ts Hwf Hav Hup)
  end.

Ltac wp_step :=
  lazymatch goal with
  | |- wp (bind _ _) _ _ => apply wp_bind
  | |- wp (ret _) _ _ => apply wp_ret
  | |- wp get _ _ => apply wp_get
  | |- wp (modify _) _ _ => apply wp_modify
  | |- wp (ini_parser_set_parser_error _ _) _ _ => apply wp_set_parser_error
  | |- wp peek_token _ _ => wp_peek_step
  | |- wp skip_token _ _ => wp_skip_step
  end.

(** Decide the kind tests whose outcome the context determines. *)
Ltac simp_typ :=
  repeat match goal with
  | |- context [typ_is ?a ?b] =>
      first [ rewrite (proj2 (typ_is_true a b)) by congruence
            | rewrite (proj2 (typ_is_false a b)) by congruence ]
  | H : context [typ_is ?a ?b] |- _ =>
      first [ rewrite (proj2 (typ_is_true a b)) in H by congruence
            | rewrite (proj2 (typ_is_false a b)) in H by congruence ]
  end;
  rewrite ?andb_false_r, ?andb_true_r;
  cbv beta iota; cbn [andb orb negb].

(** Turn a statement on the outcome of a run into a [wp] goal. *)
Ltac to_wp :=
  match goal with
  | |- exists p', ?m ?p = Done (?a, p') /\ @?Q p' =>
      let W := fresh "W" in
      enough (W : wp m (fun r p' => r = a /\ Q p') p);
      [ let r := fresh "r" in let p' := fresh "p'" in
        let E := fresh "E" in let HQ := fresh "HQ" in
        destruct (wp_done _ _ _ W) as (r & p' & E & -> & HQ);
        exists p'; split; [exact E | exact HQ]
      | ]
  end.

(** Run along the path that the hypotheses on the token kinds select. *)
Ltac run := repeat first [ wp_step | progress intros | progress simp_typ ].

(** Split the conjunctions of a goal, and only them. *)
Ltac splits := repeat match goal with |- _ /\ _ => split end.

(** Read the members of a parser off the equations collected on the way. *)
Ltac members :=
  unfold control, position in *;
  cbn [error problem problem_mark context context_mark document_end_produced
       tokens tokens_head tokens_parsed token_available state states
       scanner_rest set_error set_problem set_problem_mark set_context
       set_context_mark set_document_end_produced set_tokens set_tokens_head
       set_tokens_parsed set_token_available set_state set_states
       set_scanner_rest] in *.

(** Explore every path: case analysis on the upcoming tokens and on each kind
    test that the context leaves open. *)
Ltac split_kind :=
  match goal with
  | |- wp (if ?c then _ else _) _ _ =>
      match c with
      | context [typ_is ?a ?b] =>
          let E := fresh "E" in
          destruct (typ_is a b) eqn:E;
          [ apply typ_is_true in E | apply typ_is_false in E ]
      end
  end.

Ltac explore :=
  repeat first
    [ wp_step
    | progress intros
    | progress simp_typ
    | match goal with
      | |- match ?l with [] => _ | _ :: _ => _ end => destruct l
      end
    | split_kind ].

(** ** Properties of the state machine *)

Section Properties.

Variables ini_SECTION_TAG ini_SECTION_INHERIT_TAG ini_NULL_TAG : string.
Variable analyzeTag : string -> string.

Local Abbreviation parse :=
  (ini_parser_parse ini_SECTION_TAG ini_SECTION_INHERIT_TAG ini_NULL_TAG analyzeTag).
Local Abbreviation state_machine :=
  (ini_parser_state_machine ini_SECTION_TAG ini_SECTION_INHERIT_TAG ini_NULL_TAG
     analyzeTag).
Local Abbreviation section_entry :=
  (ini_parser_parse_section_entry ini_SECTION_TAG ini_SECTION_INHERIT_TAG analyzeTag).
Local Abbreviation section_key := (ini_parser_parse_section_key analyzeTag).
Local Abbreviation section_value := (ini_parser_parse_section_value ini_NULL_TAG analyzeTag).

Lemma parse_halted (ev : ini_event_t) (p : ini_parser_t) :
  halted p -> parse ev p = Done ((true, empty_event), p).
Proof.
  unfold ini_parser_parse, bind, get, ret, error_is, state_is.
  intros [H|[H|H]].
  - now rewrite H.
  - destruct (error_type_eq_dec (error p) ini_NO_ERROR); [contradiction|].
    now rewrite orb_true_r.
  - rewrite H. destruct (parser_state_eq_dec _ _); [|contradiction].
    now rewrite orb_true_r.
Qed.

Lemma parse_live (ev : ini_event_t) (p : ini_parser_t) :
  ~ halted p -> parse ev p = state_machine empty_event p.
Proof.
  unfold halted, ini_parser_parse, bind, get, error_is, state_is. intros H.
  destruct (document_end_produced p); [tauto|].
  destruct (error_type_eq_dec (error p) ini_NO_ERROR); [|tauto].
  destruct (parser_state_eq_dec _ _); [tauto|]. reflexivity.
Qed.

Lemma halted_dec (p : ini_parser_t) : halted p \/ ~ halted p.
Proof.
  unfold halted.
  destruct (document_end_produced p); [now left; left|].
  destruct (error_type_eq_dec (error p) ini_NO_ERROR) as [E|E];
    [|now left; right; left].
  destruct (parser_state_eq_dec (state p) ini_PARSE_DOCUMENT_END_STATE) as [S|S];
    [now left; right; right|].
  right; intros [H|[H|H]]; congruence.
Qed.

Lemma live_not_halted (s : ini_parser_state_t) (p : ini_parser_t) :
  live_in s p -> s <> ini_PARSE_DOCUMENT_END_STATE -> ~ halted p.
Proof.
  intros (_ & Hf & He & Hs) Hn [H|[H|H]]; congruence.
Qed.

(** How the dispatcher selects the transition function. *)
Lemma parse_first_entry (ev : ini_event_t) (p : ini_parser_t) :
  live_in ini_PARSE_SECTION_FIRST_ENTRY_STATE p ->
  parse ev p = section_entry empty_event true p.
Proof.
  intros H. rewrite parse_live by (eapply live_not_halted; [eassumption|discriminate]).
  destruct H as (_ & _ & _ & Hs).
  unfold ini_parser_state_machine, bind, get. now rewrite Hs.
Qed.

Lemma parse_entry (ev : ini_event_t) (p : ini_parser_t) :
  live_in ini_PARSE_SECTION_ENTRY_STATE p ->
  parse ev p = section_entry empty_event false p.
Proof.
  intros H. rewrite parse_live by (eapply live_not_halted; [eassumption|discriminate]).
  destruct H as (_ & _ & _ & Hs).
  unfold ini_parser_state_machine, bind, get. now rewrite Hs.
Qed.

Lemma parse_first_key (ev : ini_event_t) (p : ini_parser_t) :
  live_in ini_PARSE_SECTION_FIRST_KEY_STATE p ->
  parse ev p = section_key empty_event true p.
Proof.
  intros H. rewrite parse_live by (eapply live_not_halted; [eassumption|discriminate]).
  destruct H as (_ & _ & _ & Hs).
  unfold ini_parser_state_machine, bind, get. now rewrite Hs.
Qed.

Lemma parse_key (ev : ini_event_t) (p : ini_parser_t) :
  live_in ini_PARSE_SECTION_KEY_STATE p ->
  parse ev p = section_key empty_event false p.
Proof.
  intros H. rewrite parse_live by (eapply live_not_halted; [eassumption|discriminate]).
  destruct H as (_ & _ & _ & Hs).
  unfold ini_parser_state_machine, bind, get. now rewrite Hs.
Qed.

Lemma parse_value (ev : ini_event_t) (p : ini_parser_t) :
  live_in ini_PARSE_SECTION_VALUE_STATE p ->
  parse ev p = section_value empty_event p.
Proof.
  intros H. rewrite parse_live by (eapply live_not_halted; [eassumption|discriminate]).
  destruct H as (_ & _ & _ & Hs).
  unfold ini_parser_state_machine, bind, get. now rewrite Hs.
Qed.

Lemma parse_document_start (ev : ini_event_t) (p : ini_parser_t) :
  live_in ini_PARSE_DOCUMENT_START_STATE p ->
  parse ev p = ini_parser_parse_document_start empty_event p.
Proof.
  intros H. rewrite parse_live by (eapply live_not_halted; [eassumption|discriminate]).
  destruct H as (_ & _ & _ & Hs).
  unfold ini_parser_state_machine, bind, get. now rewrite Hs.
Qed.


(** Peeking twice returns the same token. *)
Lemma peek_again (p : ini_parser_t) (t : ini_token_t) (ts : list ini_token_t) :
  wf p -> upcoming p = t :: ts ->
  exists p1, peek_token p = Done (Some t, p1) /\
             tokens_head p1 = tokens_head p /\ upcoming p1 = t :: ts.
Proof.
  intros Hwf Hup.
  destruct (peek_token_cons p t ts Hwf Hup) as (p1 & E & _ & _ & Hu & _ & Hp).
  exists p1. unfold position in Hp. repeat split; [exact E|congruence|exact Hu].
Qed.

(** *** Default section *)

(** C3. In the Section-First-Entry state with a section-key token as
    lookahead, the call emits the synthetic Section-Entry event: value
    "default", the section tag, start and end mark both the token's start
    mark.  It consumes nothing (the head of the queue and the upcoming tokens
    are the same), moves to Section-First-Key, and the next peek returns the
    very same key token. *)
Theorem default_section_synthesis (ev : ini_event_t) (p : ini_parser_t)
    (t : ini_token_t) (ts : list ini_token_t) :
  live_in ini_PARSE_SECTION_FIRST_ENTRY_STATE p ->
  upcoming p = t :: ts ->
  typ t = ini_SECTION_KEY_TOKEN ->
  exists p',
    parse ev p =
      Done ((true,
             mk_event ini_SECTION_ENTRY_EVENT (start_mark t) (start_mark t)
               (list_byte_of_string "default")
               (list_byte_of_string ini_SECTION_TAG) false 0), p') /\
    (live_in ini_PARSE_SECTION_FIRST_KEY_STATE p' /\
     tokens_head p' = tokens_head p /\
     tokens_parsed p' = tokens_parsed p /\
     states p' = states p /\
     upcoming p' = t :: ts /\
     exists p'', peek_token p' = Done (Some t, p'') /\
                 tokens_head p'' = tokens_head p /\ upcoming p'' = t :: ts).
Proof.
  intros Hlive Hup Ht. rewrite parse_first_entry by assumption.
  destruct Hlive as (Hwf & Hf & He & Hs).
  to_wp. unfold ini_parser_parse_section_entry.
  do 2 wp_step. intros p1 Hwf1 Hav1 Hup1 Hc1 Hp1. simp_typ.
  do 3 wp_step. unfold live_in. members.
  assert (Hh : tokens_head p1 = tokens_head p) by congruence.
  splits; try assumption; try congruence.
  rewrite <- Hh.
  apply (peek_again (set_state ini_PARSE_SECTION_FIRST_KEY_STATE p1) t ts);
    assumption.
Qed.

(** *** Boundary events of the key states *)

(** The current state does not influence a peek. *)
Lemma peek_token_set_state (s : ini_parser_state_t) (p : ini_parser_t) :
  peek_token (set_state s p) =
  match peek_token p with
  | Done (a, p') => Done (a, set_state s p')
  | Panic msg => Panic msg
  end.
Proof.
  unfold peek_token, ini_parser_fetch_more_tokens.
  change (token_available (set_state s p)) with (token_available p).
  change (tokens (set_state s p)) with (tokens p).
  change (tokens_head (set_state s p)) with (tokens_head p).
  change (scanner_rest (set_state s p)) with (scanner_rest p).
  destruct (token_available p).
  - change (tokens (set_state s p)) with (tokens p).
    change (tokens_head (set_state s p)) with (tokens_head p).
    destruct (nth_error (tokens p) (tokens_head p)); reflexivity.
  - destruct (tokens_head p <? List.length (tokens p))%nat.
    + cbn. destruct (nth_error (tokens p) (tokens_head p)); reflexivity.
    + destruct (scanner_rest p) as [|t rest]; [reflexivity|].
      cbn. destruct (nth_error (tokens p ++ [t]) (tokens_head p)); reflexivity.
Qed.

(** Both key states run the same code: [first] is not used. *)
Lemma section_key_ignores_first (ev : ini_event_t) (p : ini_parser_t) :
  section_key ev true p = section_key ev false p.
Proof. reflexivity. Qed.

Lemma section_key_boundary (ev : ini_event_t) (first : bool) (p : ini_parser_t)
    (t : ini_token_t) (ts : list ini_token_t) :
  wf p -> upcoming p = t :: ts -> typ t <> ini_SECTION_KEY_TOKEN ->
  exists p1,
    peek_token p = Done (Some t, p1) /\
    section_key ev first p =
      Done ((true, boundary_event t), set_state ini_PARSE_SECTION_ENTRY_STATE p1) /\
    wf p1 /\ upcoming p1 = t :: ts /\
    control p1 = control p /\ position p1 = position p.
Proof.
  intros Hwf Hup Ht.
  destruct (peek_token_cons p t ts Hwf Hup) as (p1 & E & H1 & H2 & H3 & H4 & H5).
  exists p1. splits; try assumption.
  unfold ini_parser_parse_section_key, bind. rewrite E. simp_typ.
  reflexivity.
Qed.

(** C5 (amended). In the non-first Section-Key state, for every lookahead
    token that is not a section-key token, the call emits the boundary
    Section-Entry event, whose range is the range of the lookahead token
    (from its start mark to its end mark) and whose value and tag are empty;
    it consumes nothing, so that the next peek returns the same token, and
    moves to the Section-Entry state. *)
Theorem section_key_boundary_event (ev : ini_event_t) (p : ini_parser_t)
    (t : ini_token_t) (ts : list ini_token_t) :
  live_in ini_PARSE_SECTION_KEY_STATE p ->
  upcoming p = t :: ts ->
  typ t <> ini_SECTION_KEY_TOKEN ->
  exists p',
    parse ev p =
      Done ((true,
             mk_event ini_SECTION_ENTRY_EVENT (start_mark t) (end_mark t)
               [] [] false 0), p') /\
    (live_in ini_PARSE_SECTION_ENTRY_STATE p' /\
     tokens_head p' = tokens_head p /\
     tokens_parsed p' = tokens_parsed p /\
     states p' = states p /\
     upcoming p' = t :: ts /\
     exists p'', peek_token p' = Done (Some t, p'') /\
                 tokens_head p'' = tokens_head p /\ upcoming p'' = t :: ts).
Proof.
  intros Hlive Hup Ht. rewrite parse_key by assumption.
  destruct Hlive as (Hwf & Hf & He & Hs).
  destruct (section_key_boundary empty_event false p t ts Hwf Hup Ht)
    as (p1 & _ & E & Hwf1 & Hup1 & Hc & Hp).
  exists (set_state ini_PARSE_SECTION_ENTRY_STATE p1).
  split; [exact E|]. unfold live_in. members.
  assert (Hh : tokens_head p1 = tokens_head p) by congruence.
  splits; try assumption; try congruence.
  rewrite <- Hh.
  apply (peek_again (set_state ini_PARSE_SECTION_ENTRY_STATE p1) t ts);
    assumption.
Qed.

(** C10. In the Section-First-Key state a lookahead token that is not a
    section-key token gives the boundary Section-Entry event without
    consuming it and moves to Section-Entry; the same call on the same parser
    put in the non-first Section-Key state returns the same event and ends in
    the same parser.  No error is recorded. *)
Theorem first_key_boundary_like_key (ev : ini_event_t) (p : ini_parser_t)
    (t : ini_token_t) (ts : list ini_token_t) :
  live_in ini_PARSE_SECTION_FIRST_KEY_STATE p ->
  upcoming p = t :: ts ->
  typ t <> ini_SECTION_KEY_TOKEN ->
  exists p',
    parse ev p = Done ((true, boundary_event t), p') /\
    (parse ev (set_state ini_PARSE_SECTION_KEY_STATE p) =
       Done ((true, boundary_event t), p') /\
     live_in ini_PARSE_SECTION_ENTRY_STATE p' /\
     tokens_head p' = tokens_head p /\
     upcoming p' = t :: ts).
Proof.
  intros Hlive Hup Ht. rewrite parse_first_key by assumption.
  destruct Hlive as (Hwf & Hf & He & Hs).
  destruct (section_key_boundary empty_event true p t ts Hwf Hup Ht)
    as (p1 & Epeek & E & Hwf1 & Hup1 & Hc & Hp).
  exists (set_state ini_PARSE_SECTION_ENTRY_STATE p1).
  split; [exact E|]. split.
  - rewrite parse_key by (unfold live_in; members; splits; auto).
    unfold ini_parser_parse_section_key, bind.
    rewrite peek_token_set_state, Epeek. simp_typ. reflexivity.
  - unfold live_in. members. splits; try assumption; congruence.
Qed.

(** *** Missing values *)

(** C7. In the Section-Value state, when the lookahead is the value marker
    and the token after it is not a scalar, the call consumes the marker
    only and emits a Scalar event with empty value, the null tag, plain
    style, start and end mark both the start mark of the non-scalar token;
    it moves to Section-Key and that token is still the next one. *)
Theorem missing_value_defaulting (ev : ini_event_t) (p : ini_parser_t)
    (m t : ini_token_t) (ts : list ini_token_t) :
  live_in ini_PARSE_SECTION_VALUE_STATE p ->
  upcoming p = m :: t :: ts ->
  typ m = ini_SECTION_VALUE_TOKEN ->
  typ t <> ini_SCALAR_TOKEN ->
  exists p',
    parse ev p =
      Done ((true,
             mk_event ini_SCALAR_EVENT (start_mark t) (start_mark t) []
               (list_byte_of_string ini_NULL_TAG) false
               ini_PLAIN_SCALAR_STYLE), p') /\
    (live_in ini_PARSE_SECTION_KEY_STATE p' /\
     tokens_head p' = S (tokens_head p) /\
     states p' = states p /\
     upcoming p' = t :: ts).
Proof.
  intros Hlive Hup Hm Ht. rewrite parse_value by assumption.
  destruct Hlive as (Hwf & Hf & He & Hs).
  to_wp. unfold ini_parser_parse_section_value, ini_parser_process_empty_scalar.
  run. unfold live_in. members. splits; try assumption; congruence.
Qed.

(** *** The entry states *)

Lemma parse_entry_state (first : bool) (ev : ini_event_t) (p : ini_parser_t) :
  live_in (entry_state first) p ->
  parse ev p = section_entry empty_event first p.
Proof.
  destruct first; [apply parse_first_entry | apply parse_entry].
Qed.

Lemma top_state_snoc (s : list ini_parser_state_t) (top : ini_parser_state_t) :
  top_state (s ++ [top]) = Some top.
Proof.
  unfold top_state. rewrite last_last.
  destruct s; reflexivity.
Qed.

(** C2 (amended). In the Section-First-Entry and the Section-Entry state
    with the document-end token as lookahead, the call emits the
    Document-End event with the token's start and end marks and pops the top
    of the state stack into the current state.  It does not consume the
    token: the head of the queue, the upcoming tokens and the counter of
    parsed tokens are unchanged, and [document_end_produced] is still
    false.  When the popped state is Document-End, the driver's gate is
    closed from then on. *)
Theorem document_end_event_without_consuming (first : bool) (ev : ini_event_t)
    (p : ini_parser_t) (t : ini_token_t) (ts : list ini_token_t)
    (s : list ini_parser_state_t) (top : ini_parser_state_t) :
  live_in (entry_state first) p ->
  upcoming p = t :: ts ->
  typ t = ini_DOCUMENT_END_TOKEN ->
  states p = s ++ [top] ->
  exists p',
    parse ev p =
      Done ((true,
             mk_event ini_DOCUMENT_END_EVENT (start_mark t) (end_mark t)
               [] [] false 0), p') /\
    (wf p' /\ state p' = top /\ states p' = s /\
     error p' = ini_NO_ERROR /\
     document_end_produced p' = false /\
     tokens_head p' = tokens_head p /\
     tokens_parsed p' = tokens_parsed p /\
     upcoming p' = t :: ts /\
     (top = ini_PARSE_DOCUMENT_END_STATE -> halted p')).
Proof.
  intros Hlive Hup Ht Hst. rewrite (parse_entry_state first) by assumption.
  destruct Hlive as (Hwf & Hf & He & Hs).
  to_wp. unfold ini_parser_parse_section_entry.
  do 2 wp_step. intros p1 Hwf1 Hav1 Hup1 Hc1 Hp1. simp_typ.
  do 2 wp_step.
  assert (Hst1 : states p1 = s ++ [top]) by (members; congruence).
  rewrite Hst1, top_state_snoc, removelast_last.
  run. unfold halted. members.
  splits; try assumption; try congruence. intros ->; now right; right.
Qed.


(** The value of an inheriting header splits back into its parts at the
    marker. *)
Lemma inherit_value_split (child marker parent : list byte) :
  firstn (List.length child) (child ++ marker ++ parent) = child /\
  skipn (List.length child + List.length marker) (child ++ marker ++ parent)
    = parent.
Proof.
  split.
  - rewrite firstn_app, Nat.sub_diag, firstn_all. simpl. apply app_nil_r.
  - rewrite app_assoc, <- length_app. rewrite skipn_app, Nat.sub_diag, skipn_all.
    reflexivity.
Qed.


(** *** Errors in a section header *)

Lemma document_start_event (ev : ini_event_t) (p : ini_parser_t)
    (t : ini_token_t) (ts : list ini_token_t) :
  live_in ini_PARSE_DOCUMENT_START_STATE p ->
  upcoming p = t :: ts ->
  typ t = ini_DOCUMENT_START_TOKEN ->
  exists p',
    parse ev p =
      Done ((true,
             mk_event ini_DOCUMENT_START_EVENT (start_mark t) (end_mark t)
               [] [] false 0), p') /\
    (live_in ini_PARSE_SECTION_FIRST_ENTRY_STATE p' /\
     tokens_head p' = S (tokens_head p) /\
     states p' = states p ++ [ini_PARSE_DOCUMENT_END_STATE] /\
     upcoming p' = ts).
Proof.
  intros Hlive Hup Ht. rewrite parse_document_start by assumption.
  destruct Hlive as (Hwf & Hf & He & Hs).
  to_wp. unfold ini_parser_parse_document_start. run.
  unfold live_in. members.
  splits; try assumption; try reflexivity; congruence.
Qed.

Lemma header_without_section_end (first : bool) (ev : ini_event_t)
    (p : ini_parser_t) (start name other : ini_token_t)
    (rest : list ini_token_t) :
  live_in (entry_state first) p ->
  upcoming p = start :: name :: other :: rest ->
  typ start = ini_SECTION_START_TOKEN ->
  typ name = ini_SCALAR_TOKEN ->
  typ other <> ini_SECTION_INHERIT_TOKEN ->
  typ other <> ini_SECTION_END_TOKEN ->
  exists p',
    parse ev p = Done ((false, empty_event), p') /\
    (error p' = ini_PARSER_ERROR /\
     problem p' = "did not find expected <section-end>" /\
     problem_mark p' = start_mark other).
Proof.
  intros Hlive Hup H1 H2 H3 H4. rewrite (parse_entry_state first) by assumption.
  destruct Hlive as (Hwf & Hf & He & Hs).
  to_wp. unfold ini_parser_parse_section_entry. run.
  members. splits; reflexivity.
Qed.

Lemma initial_parser_live (toks : list ini_token_t) :
  live_in ini_PARSE_DOCUMENT_START_STATE (initial_parser toks).
Proof.
  unfold live_in, wf; cbn. splits; auto; discriminate.
Qed.

(** C8. On the token sequence document-start, section-start, scalar and then
    a token that is neither the inherit marker nor section-end, the first
    call emits the Document-Start event and the second call, which reaches
    that token, returns the failure status and records the Parser error
    "did not find expected <section-end>" at the start mark of that token. *)
Theorem unterminated_header_error (ev ev' : ini_event_t)
    (ds start name other : ini_token_t) (rest : list ini_token_t) :
  typ ds = ini_DOCUMENT_START_TOKEN ->
  typ start = ini_SECTION_START_TOKEN ->
  typ name = ini_SCALAR_TOKEN ->
  typ other <> ini_SECTION_INHERIT_TOKEN ->
  typ other <> ini_SECTION_END_TOKEN ->
  exists p1 p2,
    parse ev (initial_parser (ds :: start :: name :: other :: rest)) =
      Done ((true,
             mk_event ini_DOCUMENT_START_EVENT (start_mark ds) (end_mark ds)
               [] [] false 0), p1) /\
    parse ev' p1 = Done ((false, empty_event), p2) /\
    error p2 = ini_PARSER_ERROR /\
    problem p2 = "did not find expected <section-end>" /\
    problem_mark p2 = start_mark other.
Proof.
  intros H0 H1 H2 H3 H4.
  destruct (document_start_event ev
              (initial_parser (ds :: start :: name :: other :: rest))
              ds (start :: name :: other :: rest)
              (initial_parser_live _) eq_refl H0)
    as (p1 & E1 & Hlive1 & _ & _ & Hup1).
  destruct (header_without_section_end true ev' p1 start name other rest
              Hlive1 Hup1 H1 H2 H3 H4)
    as (p2 & E2 & He & Hpr & Hm).
  exists p1, p2. splits; assumption.
Qed.

(** *** The latch of the driver *)

Lemma not_halted_members (p : ini_parser_t) :
  ~ halted p ->
  document_end_produced p = false /\ error p = ini_NO_ERROR /\
  state p <> ini_PARSE_DOCUMENT_END_STATE.
Proof.
  unfold halted. intros H.
  destruct (document_end_produced p); [tauto|].
  destruct (error_type_eq_dec (error p) ini_NO_ERROR); [|tauto].
  splits; auto.
Qed.

Ltac call_leaf :=
  unfold call_post, inv, halted, stack_ok; members;
  splits;
  [ assumption
  | first [ solve [left; right; left; discriminate]
          | solve [right; congruence]
          | solve [right;
                   match goal with
                   | |- ?s ++ _ = _ =>
                       replace s with (@nil ini_parser_state_t) by congruence
                   end; reflexivity]
          | solve [left; right; right; congruence] ]
  | cbn [fst snd]; intros; first [discriminate | split; [discriminate | reflexivity]]
  | cbn [fst snd]; intros; first [discriminate | congruence]
  | cbn [fst snd e_typ]; intros; first [discriminate | congruence] ].

Lemma call_not_halted (ev : ini_event_t) (p : ini_parser_t) :
  inv p -> ~ halted p -> wp (parse ev) call_post p.
Proof.
  intros [Hwf [Hh|Hst]] Hn; [contradiction|].
  unfold wp. rewrite parse_live by assumption.
  change (wp (state_machine empty_event) call_post p).
  destruct (not_halted_members p Hn) as (Hf & He & Hnd).
  assert (Hup : upcoming p = upcoming p) by reflexivity.
  unfold ini_parser_state_machine. do 2 wp_step. cbv beta.
  unfold stack_ok in Hst.
  destruct (state p) eqn:Hs; try contradiction.
  - unfold ini_parser_parse_document_start. explore.
    all: call_leaf.
  - unfold ini_parser_parse_section_entry. explore.
    all: try solve [call_leaf].
    replace (states p1) with [ini_PARSE_DOCUMENT_END_STATE]
      by (members; congruence).
    cbn [top_state last removelast]. explore. call_leaf.
  - unfold ini_parser_parse_section_entry. explore.
    all: try solve [call_leaf].
    replace (states p1) with [ini_PARSE_DOCUMENT_END_STATE]
      by (members; congruence).
    cbn [top_state last removelast]. explore. call_leaf.
  - unfold ini_parser_parse_section_key. explore. all: call_leaf.
  - unfold ini_parser_parse_section_key. explore. all: call_leaf.
  - unfold ini_parser_parse_section_value, ini_parser_process_empty_scalar.
    explore. all: call_leaf.
Qed.

Lemma reachable_inv (p : ini_parser_t) : reachable parse p -> inv p.
Proof.
  induction 1 as [toks | p ev r p' _ IH E].
  - split; [apply initial_parser_live | right; reflexivity].
  - destruct (halted_dec p) as [Hh|Hn].
    + rewrite (parse_halted ev p Hh) in E. now inversion E; subst.
    + pose proof (call_not_halted ev p IH Hn) as W. unfold wp in W.
      rewrite E in W. apply W.
Qed.

(** A halted parser answers every call with success and the erased event,
    and stays as it is. *)
Lemma halted_forever (evs : list ini_event_t) (p : ini_parser_t) :
  halted p ->
  parse_all parse evs p = Done (map (fun _ => (true, empty_event)) evs, p).
Proof.
  intros Hh. induction evs as [|ev evs IH]; [reflexivity|].
  cbn [parse_all map]. rewrite (parse_halted ev p Hh), IH. reflexivity.
Qed.

(** C1. Every call on a reachable parser returns (it does not panic).  If
    the call produced the Document-End event, or an error is recorded after
    it, or it left the parser in the Document-End state, then every later
    call, however many follow, returns success with the erased event and
    leaves the parser as it is, so that the error is not reported again.  A
    call returns failure only when no error was recorded before it and one
    is recorded after it. *)
Theorem sticky_end_of_events (ev : ini_event_t) (p : ini_parser_t) :
  reachable parse p ->
  exists b e p',
    parse ev p = Done ((b, e), p') /\
    ((e_typ e = ini_DOCUMENT_END_EVENT \/ error p' <> ini_NO_ERROR \/
      state p' = ini_PARSE_DOCUMENT_END_STATE) ->
     forall evs,
       parse_all parse evs p' =
         Done (map (fun _ => (true, empty_event)) evs, p')) /\
    (b = false -> error p = ini_NO_ERROR /\ error p' <> ini_NO_ERROR).
Proof.
  intros Hr. pose proof (reachable_inv p Hr) as Hinv.
  destruct (halted_dec p) as [Hh|Hn].
  - exists true, empty_event, p. split; [apply parse_halted; exact Hh|].
    split; [|discriminate]. intros _ evs. now apply halted_forever.
  - destruct (wp_done _ _ _ (call_not_halted ev p Hinv Hn))
      as ([b e] & p' & E & _ & Hfalse & _ & Hend).
    cbn [fst snd] in *.
    exists b, e, p'. split; [exact E|]. split.
    + intros Htrig evs. apply halted_forever. unfold halted.
      destruct Htrig as [H|[H|H]]; auto.
    + intros Hb. split; [apply (not_halted_members p Hn) | apply Hfalse, Hb].
Qed.

(** *** The flag [document_end_produced] *)



















(** *** The token queue as its users see it *)

Lemma peeked_token_at_head (p : ini_parser_t) (t : ini_token_t)
    (ts : list ini_token_t) :
  wf p -> token_available p = true -> upcoming p = t :: ts ->
  nth_error (tokens p) (tokens_head p) = Some t.
Proof.
  intros [_ Hav] Eav Hup. specialize (Hav Eav). unfold upcoming in Hup.
  destruct (skipn_in_range _ _ Hav) as (x & r & Hs).
  rewrite Hs in Hup. simpl in Hup. inversion Hup; subst x.
  exact (nth_error_skipn_cons _ _ _ _ Hs).
Qed.

(** X1. A peek that finds a token returns the first token that is not
    consumed and consumes nothing: position, flag and the members outside
    the queue are as before, and a second peek returns the same token and
    changes nothing at all. *)
Theorem peek_token_is_idempotent (p : ini_parser_t) (t : ini_token_t)
    (ts : list ini_token_t) :
  wf p -> upcoming p = t :: ts ->
  exists p1,
    peek_token p = Done (Some t, p1) /\
    peek_token p1 = Done (Some t, p1) /\
    upcoming p1 = t :: ts /\
    tokens_head p1 = tokens_head p /\
    tokens_parsed p1 = tokens_parsed p /\
    document_end_produced p1 = document_end_produced p /\
    control p1 = control p.
Proof.
  intros Hwf Hup.
  destruct (peek_token_cons p t ts Hwf Hup) as (p1 & E & Hwf1 & Hav1 & Hup1 & Hc & Hp).
  exists p1. unfold position in Hp. splits; try assumption; try congruence.
  unfold peek_token. rewrite Hav1.
  now rewrite (peeked_token_at_head p1 t ts Hwf1 Hav1 Hup1).
Qed.

(** X2. Peek followed by skip removes exactly the first token: the head of
    the queue moves by one, the counter of parsed tokens is incremented (as
    a 64-bit integer), the flag [document_end_produced] becomes the test
    whether the removed token is the document-end token, and the members
    outside the queue are untouched. *)
Theorem peek_then_skip_removes_one (p : ini_parser_t) (t : ini_token_t)
    (ts : list ini_token_t) :
  wf p -> upcoming p = t :: ts ->
  exists p2,
    (tok <- peek_token ;; skip_token ;;; ret tok) p = Done (Some t, p2) /\
    wf p2 /\
    upcoming p2 = ts /\
    tokens_head p2 = S (tokens_head p) /\
    tokens_parsed p2 = wrap64 (tokens_parsed p + 1) /\
    document_end_produced p2 = typ_is (typ t) ini_DOCUMENT_END_TOKEN /\
    token_available p2 = false /\
    control p2 = control p.
Proof.
  intros Hwf Hup.
  destruct (peek_token_cons p t ts Hwf Hup) as (p1 & E & Hwf1 & Hav1 & Hup1 & Hc & Hp).
  destruct (skip_token_cons p1 t ts Hwf1 Hav1 Hup1)
    as (p2 & E2 & Hwf2 & Hav2 & Hup2 & Hc2 & Hp2).
  exists p2. unfold bind, ret. rewrite E, E2.
  unfold position in *. splits; try assumption; try congruence.
Qed.

(** X3. A skip panics, with an index out of range, exactly when no token is
    queued at the head of the queue, as it is before anything was peeked;
    after a peek that returned a token it never does. *)
Theorem skip_token_needs_a_queued_token (p : ini_parser_t) :
  skip_token p = Panic "index out of range" <->
  (List.length (tokens p) <= tokens_head p)%nat.
Proof.
  unfold skip_token.
  cbn [tokens tokens_head set_token_available set_tokens_parsed].
  split.
  - intros H. apply nth_error_None.
    destruct (nth_error (tokens p) (tokens_head p)); [discriminate|reflexivity].
  - intros H. apply nth_error_None in H. now rewrite H.
Qed.

(** *** The transitions that remain *)

(** X4. In the Document-Start state a document-start token is consumed and
    gives the Document-Start event with the token's marks; the Document-End
    state is pushed as return point and the parser moves to
    Section-First-Entry. *)
Theorem document_start_transition (ev : ini_event_t) (p : ini_parser_t)
    (t : ini_token_t) (ts : list ini_token_t) :
  live_in ini_PARSE_DOCUMENT_START_STATE p ->
  upcoming p = t :: ts ->
  typ t = ini_DOCUMENT_START_TOKEN ->
  exists p',
    parse ev p =
      Done ((true,
             mk_event ini_DOCUMENT_START_EVENT (start_mark t) (end_mark t)
               [] [] false 0), p') /\
    (live_in ini_PARSE_SECTION_FIRST_ENTRY_STATE p' /\
     tokens_head p' = S (tokens_head p) /\
     states p' = states p ++ [ini_PARSE_DOCUMENT_END_STATE] /\
     upcoming p' = ts).
Proof. apply document_start_event. Qed.

(** X5. In the Document-Start state any other token is consumed all the same
    and the call fails with the Parser error "did not find expected
    <document-start>" at the token's start mark; the state and the stack are
    unchanged, and [document_end_produced] is set when the token was the
    document-end token. *)
Theorem document_start_missing (ev : ini_event_t) (p : ini_parser_t)
    (t : ini_token_t) (ts : list ini_token_t) :
  live_in ini_PARSE_DOCUMENT_START_STATE p ->
  upcoming p = t :: ts ->
  typ t <> ini_DOCUMENT_START_TOKEN ->
  exists p',
    parse ev p = Done ((false, empty_event), p') /\
    (error p' = ini_PARSER_ERROR /\
     problem p' = "did not find expected <document-start>" /\
     problem_mark p' = start_mark t /\
     state p' = ini_PARSE_DOCUMENT_START_STATE /\
     states p' = states p /\
     tokens_head p' = S (tokens_head p) /\
     upcoming p' = ts /\
     document_end_produced p' = typ_is (typ t) ini_DOCUMENT_END_TOKEN).
Proof.
  intros Hlive Hup Ht. rewrite parse_document_start by assumption.
  destruct Hlive as (Hwf & Hf & He & Hs).
  to_wp. unfold ini_parser_parse_document_start.
  do 2 wp_step. intros p1 Hwf1 Hav1 Hup1 Hc1 Hp1. cbv beta iota.
  do 2 wp_step. intros p2 Hwf2 Hav2 Hup2 Hc2 Hp2.
  rewrite (proj2 (typ_is_false _ _) Ht). cbn [negb].
  run. members. splits; try reflexivity; try assumption; congruence.
Qed.

(** X6. In both key states a section-key token followed by a scalar token:
    the call consumes the two and emits a Scalar event from the start mark
    of the key token to the end mark of the scalar, with the scalar's bytes
    as value, their classification as tag and the scalar's style; the parser
    moves to Section-Value. *)
Theorem section_key_scalar (first : bool) (ev : ini_event_t) (p : ini_parser_t)
    (key name : ini_token_t) (ts : list ini_token_t) :
  live_in (if first then ini_PARSE_SECTION_FIRST_KEY_STATE
           else ini_PARSE_SECTION_KEY_STATE) p ->
  upcoming p = key :: name :: ts ->
  typ key = ini_SECTION_KEY_TOKEN ->
  typ name = ini_SCALAR_TOKEN ->
  exists p',
    parse ev p =
      Done ((true,
             mk_event ini_SCALAR_EVENT (start_mark key) (end_mark name)
               (value name)
               (list_byte_of_string
                  (analyzeTag (string_of_list_byte (value name))))
               false (style name)), p') /\
    (live_in ini_PARSE_SECTION_VALUE_STATE p' /\
     tokens_head p' = (2 + tokens_head p)%nat /\
     states p' = states p /\
     upcoming p' = ts).
Proof.
  intros Hlive Hup Hk Hn.
  assert (E : parse ev p = section_key empty_event first p)
    by (destruct first; [apply parse_first_key | apply parse_key]; assumption).
  rewrite E. destruct Hlive as (Hwf & Hf & He & Hs).
  to_wp. unfold ini_parser_parse_section_key. run.
  unfold live_in. members. cbn [Nat.add].
  splits; try assumption; try reflexivity; congruence.
Qed.

(** X7. In both key states a section-key token followed by a token that is
    not a scalar: the call consumes the key token only and fails with the
    Parser error "did not find expected <scalar>" at the start mark of the
    other token, which stays the next token. *)
Theorem section_key_without_scalar (first : bool) (ev : ini_event_t)
    (p : ini_parser_t) (key other : ini_token_t) (ts : list ini_token_t) :
  live_in (if first then ini_PARSE_SECTION_FIRST_KEY_STATE
           else ini_PARSE_SECTION_KEY_STATE) p ->
  upcoming p = key :: other :: ts ->
  typ key = ini_SECTION_KEY_TOKEN ->
  typ other <> ini_SCALAR_TOKEN ->
  exists p',
    parse ev p = Done ((false, empty_event), p') /\
    (error p' = ini_PARSER_ERROR /\
     problem p' = "did not find expected <scalar>" /\
     problem_mark p' = start_mark other /\
     state p' = state p /\
     tokens_head p' = S (tokens_head p) /\
     upcoming p' = other :: ts).
Proof.
  intros Hlive Hup Hk Hn.
  assert (E : parse ev p = section_key empty_event first p)
    by (destruct first; [apply parse_first_key | apply parse_key]; assumption).
  rewrite E. destruct Hlive as (Hwf & Hf & He & Hs).
  to_wp. unfold ini_parser_parse_section_key. run.
  members. splits; try assumption; try reflexivity; congruence.
Qed.

(** X8. In the Section-Value state the value marker followed by a scalar
    token: the call consumes the two and emits a Scalar event from the start
    mark of the marker to the end mark of the scalar, with the scalar's
    bytes, their classification as tag and the scalar's style; the parser
    moves to Section-Key. *)
Theorem section_value_scalar (ev : ini_event_t) (p : ini_parser_t)
    (m v : ini_token_t) (ts : list ini_token_t) :
  live_in ini_PARSE_SECTION_VALUE_STATE p ->
  upcoming p = m :: v :: ts ->
  typ m = ini_SECTION_VALUE_TOKEN ->
  typ v = ini_SCALAR_TOKEN ->
  exists p',
    parse ev p =
      Done ((true,
             mk_event ini_SCALAR_EVENT (start_mark m) (end_mark v) (value v)
               (list_byte_of_string
                  (analyzeTag (string_of_list_byte (value v))))
               false (style v)), p') /\
    (live_in ini_PARSE_SECTION_KEY_STATE p' /\
     tokens_head p' = (2 + tokens_head p)%nat /\
     states p' = states p /\
     upcoming p' = ts).
Proof.
  intros Hlive Hup Hm Hv. rewrite parse_value by assumption.
  destruct Hlive as (Hwf & Hf & He & Hs).
  to_wp. unfold ini_parser_parse_section_value. run.
  unfold live_in. members. cbn [Nat.add].
  splits; try assumption; try reflexivity; congruence.
Qed.

(** X9. In the Section-Value state a lookahead that is not the value marker
    is not consumed and the call fails with the Parser error "did not find
    expected <section-value>" at its start mark. *)
Theorem section_value_without_marker (ev : ini_event_t) (p : ini_parser_t)
    (t : ini_token_t) (ts : list ini_token_t) :
  live_in ini_PARSE_SECTION_VALUE_STATE p ->
  upcoming p = t :: ts ->
  typ t <> ini_SECTION_VALUE_TOKEN ->
  exists p',
    parse ev p = Done ((false, empty_event), p') /\
    (error p' = ini_PARSER_ERROR /\
     problem p' = "did not find expected <section-value>" /\
     problem_mark p' = start_mark t /\
     state p' = ini_PARSE_SECTION_VALUE_STATE /\
     tokens_head p' = tokens_head p /\
     upcoming p' = t :: ts).
Proof.
  intros Hlive Hup Ht. rewrite parse_value by assumption.
  destruct Hlive as (Hwf & Hf & He & Hs).
  to_wp. unfold ini_parser_parse_section_value. run.
  members. splits; try assumption; try reflexivity; congruence.
Qed.

(** X10. In an entry state a lookahead that is none of document-end,
    section-start and section-end, and in the first entry state not a
    section-key token either, is not consumed, and the call fails with the
    Parser error "did not find expected <section-start> or <section-key>" at
    its start mark.  In the non-first entry state this is the answer to a
    section-key token as well. *)
Theorem section_entry_unexpected_token (first : bool) (ev : ini_event_t)
    (p : ini_parser_t) (t : ini_token_t) (ts : list ini_token_t) :
  live_in (entry_state first) p ->
  upcoming p = t :: ts ->
  typ t <> ini_DOCUMENT_END_TOKEN ->
  typ t <> ini_SECTION_START_TOKEN ->
  typ t <> ini_SECTION_END_TOKEN ->
  (first = true -> typ t <> ini_SECTION_KEY_TOKEN) ->
  exists p',
    parse ev p = Done ((false, empty_event), p') /\
    (error p' = ini_PARSER_ERROR /\
     problem p' = "did not find expected <section-start> or <section-key>" /\
     problem_mark p' = start_mark t /\
     state p' = entry_state first /\
     tokens_head p' = tokens_head p /\
     upcoming p' = t :: ts).
Proof.
  intros Hlive Hup H1 H2 H3 H4. rewrite (parse_entry_state first) by assumption.
  destruct Hlive as (Hwf & Hf & He & Hs).
  to_wp. unfold ini_parser_parse_section_entry.
  destruct first; [specialize (H4 eq_refl)|]; run;
    members; splits; try assumption; try reflexivity; congruence.
Qed.

(** X11. After a section-start token the next token is consumed whatever it
    is; when it is not a scalar the call fails with the Parser error "did
    not find expected <scalar>" at its start mark. *)
Theorem section_header_without_name (first : bool) (ev : ini_event_t)
    (p : ini_parser_t) (start other : ini_token_t) (ts : list ini_token_t) :
  live_in (entry_state first) p ->
  upcoming p = start :: other :: ts ->
  typ start = ini_SECTION_START_TOKEN ->
  typ other <> ini_SCALAR_TOKEN ->
  exists p',
    parse ev p = Done ((false, empty_event), p') /\
    (error p' = ini_PARSER_ERROR /\
     problem p' = "did not find expected <scalar>" /\
     problem_mark p' = start_mark other /\
     state p' = entry_state first /\
     tokens_head p' = (2 + tokens_head p)%nat /\
     upcoming p' = ts).
Proof.
  intros Hlive Hup H1 H2. rewrite (parse_entry_state first) by assumption.
  destruct Hlive as (Hwf & Hf & He & Hs).
  to_wp. unfold ini_parser_parse_section_entry.
  do 2 wp_step. intros p1 Hwf1 Hav1 Hup1 Hc1 Hp1. simp_typ.
  do 2 wp_step. intros p2 Hwf2 Hav2 Hup2 Hc2 Hp2.
  do 2 wp_step. intros p3 Hwf3 Hav3 Hup3 Hc3 Hp3. cbv beta iota.
  do 2 wp_step. intros p4 Hwf4 Hav4 Hup4 Hc4 Hp4.
  rewrite (proj2 (typ_is_false _ _) H2).
  run. members. cbn [Nat.add].
  splits; try assumption; try reflexivity; congruence.
Qed.

(** X12. After section-start, name and inherit marker the next token is
    consumed whatever it is; when it is not a scalar the call fails with the
    Parser error "did not find expected <scalar>" at its start mark, and the
    state is as before the call. *)
Theorem section_header_without_parent (first : bool) (ev : ini_event_t)
    (p : ini_parser_t) (start child marker other : ini_token_t)
    (ts : list ini_token_t) :
  live_in (entry_state first) p ->
  upcoming p = start :: child :: marker :: other :: ts ->
  typ start = ini_SECTION_START_TOKEN ->
  typ child = ini_SCALAR_TOKEN ->
  typ marker = ini_SECTION_INHERIT_TOKEN ->
  typ other <> ini_SCALAR_TOKEN ->
  exists p',
    parse ev p = Done ((false, empty_event), p') /\
    (error p' = ini_PARSER_ERROR /\
     problem p' = "did not find expected <scalar>" /\
     problem_mark p' = start_mark other /\
     state p' = entry_state first /\
     tokens_head p' = (4 + tokens_head p)%nat /\
     upcoming p' = ts).
Proof.
  intros Hlive Hup H1 H2 H3 H4. rewrite (parse_entry_state first) by assumption.
  destruct Hlive as (Hwf & Hf & He & Hs).
  to_wp. unfold ini_parser_parse_section_entry.
  do 2 wp_step. intros p1 Hwf1 Hav1 Hup1 Hc1 Hp1. simp_typ.
  do 2 wp_step. intros p2 Hwf2 Hav2 Hup2 Hc2 Hp2.
  do 2 wp_step. intros p3 Hwf3 Hav3 Hup3 Hc3 Hp3. simp_typ.
  do 2 wp_step. intros p4 Hwf4 Hav4 Hup4 Hc4 Hp4. simp_typ.
  do 2 wp_step. intros p5 Hwf5 Hav5 Hup5 Hc5 Hp5. simp_typ.
  do 3 wp_step. intros p6 Hwf6 Hav6 Hup6 Hc6 Hp6.
  do 2 wp_step. intros p7 Hwf7 Hav7 Hup7 Hc7 Hp7. cbv beta iota.
  do 2 wp_step. intros p8 Hwf8 Hav8 Hup8 Hc8 Hp8.
  rewrite (proj2 (typ_is_false _ _) H4).
  run. members. cbn [Nat.add].
  splits; try assumption; try reflexivity; congruence.
Qed.

(** X13. A header with the inheritance clause whose last token is not
    section-end: the four tokens before it are consumed, it is not, and the
    call fails with the Parser error "did not find expected <section-end>"
    at its start mark; the state is already Section-First-Key. *)
Theorem inherit_header_without_section_end (first : bool) (ev : ini_event_t)
    (p : ini_parser_t) (start child marker parent other : ini_token_t)
    (ts : list ini_token_t) :
  live_in (entry_state first) p ->
  upcoming p = start :: child :: marker :: parent :: other :: ts ->
  typ start = ini_SECTION_START_TOKEN ->
  typ child = ini_SCALAR_TOKEN ->
  typ marker = ini_SECTION_INHERIT_TOKEN ->
  typ parent = ini_SCALAR_TOKEN ->
  typ other <> ini_SECTION_END_TOKEN ->
  exists p',
    parse ev p = Done ((false, empty_event), p') /\
    (error p' = ini_PARSER_ERROR /\
     problem p' = "did not find expected <section-end>" /\
     problem_mark p' = start_mark other /\
     state p' = ini_PARSE_SECTION_FIRST_KEY_STATE /\
     tokens_head p' = (4 + tokens_head p)%nat /\
     upcoming p' = other :: ts).
Proof.
  intros Hlive Hup H1 H2 H3 H4 H5. rewrite (parse_entry_state first) by assumption.
  destruct Hlive as (Hwf & Hf & He & Hs).
  to_wp. unfold ini_parser_parse_section_entry. run.
  members. cbn [Nat.add].
  splits; try assumption; try reflexivity; congruence.
Qed.

(** *** Where the driver panics *)

(** X14. On a parser that passes the gate in a state for which the
    dispatcher has no case, such as the Go zero value of the parser (state
    Stream-Start), the call panics with "invalid parser state" whatever the
    tokens are. *)
Theorem undispatched_state_panics (ev : ini_event_t) (p : ini_parser_t) :
  ~ halted p ->
  dispatched (state p) = false ->
  parse ev p = Panic "invalid parser state".
Proof.
  intros Hn Hd. rewrite parse_live by assumption.
  unfold ini_parser_state_machine, bind, get.
  destruct (state p); try discriminate Hd; reflexivity.
Qed.

(** X15. The Document-End event pops the state stack without a test: in an
    entry state with the document-end token as lookahead and an empty stack
    the call panics with an index out of range. *)
Theorem document_end_on_empty_stack_panics (first : bool) (ev : ini_event_t)
    (p : ini_parser_t) (t : ini_token_t) (ts : list ini_token_t) :
  live_in (entry_state first) p ->
  upcoming p = t :: ts ->
  typ t = ini_DOCUMENT_END_TOKEN ->
  states p = [] ->
  parse ev p = Panic "index out of range".
Proof.
  intros Hlive Hup Ht Hst. rewrite (parse_entry_state first) by assumption.
  destruct Hlive as (Hwf & Hf & He & Hs).
  destruct (peek_token_cons p t ts Hwf Hup) as (p1 & E & _ & _ & _ & Hc & _).
  unfold ini_parser_parse_section_entry, bind. rewrite E. simp_typ.
  unfold get. replace (states p1) with (@nil ini_parser_state_t)
    by (members; congruence).
  reflexivity.
Qed.

(** *** What every call keeps *)

Ltac norm_upcoming :=
  repeat match goal with
  | |- context [upcoming (?f ?v ?q)] =>
      progress change (upcoming (f v q)) with (upcoming q)
  end.

Ltac fifo_leaf :=
  first
    [ solve [exists 0%nat; cbn [skipn Nat.add]; split; congruence]
    | solve [exists 1%nat; cbn [skipn Nat.add]; split; congruence]
    | solve [exists 2%nat; cbn [skipn Nat.add]; split; congruence]
    | solve [exists 3%nat; cbn [skipn Nat.add]; split; congruence]
    | solve [exists 4%nat; cbn [skipn Nat.add]; split; congruence]
    | solve [exists 5%nat; cbn [skipn Nat.add]; split; congruence] ].

Ltac progress_leaf :=
  first
    [ solve [left; right; left; discriminate]
    | solve [left; right; right; congruence]
    | solve [right;
             repeat match goal with
             | H : upcoming ?q = _ |- context [upcoming ?q] => rewrite H
             | H : state ?q = _ |- context [rank (state ?q)] => rewrite H
             end;
             cbn [List.length rank]; lia] ].

Ltac facts_leaf :=
  unfold stack_bounded, error_known, past_start, halted, calls_left;
  norm_upcoming; members; cbn [fst snd e_typ empty_event];
  splits;
  [ first [ solve [left; congruence]
          | solve [right; congruence]
          | solve [left; reflexivity]
          | solve [right;
                   match goal with
                   | |- ?s ++ _ = _ =>
                       replace s with (@nil ini_parser_state_t) by congruence
                   end; reflexivity] ]
  | first [ solve [left; congruence]
          | solve [right; left; reflexivity]
          | solve [right; right; split;
                   [reflexivity | unfold parser_problems; simpl; tauto]] ]
  | intros; first [discriminate | reflexivity]
  | intros; first [discriminate | unfold emitted_kinds; simpl; tauto]
  | fifo_leaf
  | progress_leaf
  | intros; first [discriminate | congruence]
  | first [ solve [left; right; left; discriminate]
          | solve [right; discriminate]
          | solve [left; right; right; congruence] ] ].

Lemma call_keeps_facts (ev : ini_event_t) (p : ini_parser_t) :
  inv p -> ~ halted p -> wp (parse ev) (call_facts p) p.
Proof.
  intros [Hwf [Hh|Hst]] Hn; [contradiction|].
  unfold wp. rewrite parse_live by assumption.
  change (wp (state_machine empty_event) (call_facts p) p).
  destruct (not_halted_members p Hn) as (Hf & He & Hnd).
  remember (upcoming p) as l0 eqn:Hup0. symmetry in Hup0.
  unfold call_facts, calls_left. rewrite Hup0.
  unfold ini_parser_state_machine. do 2 wp_step. cbv beta.
  unfold stack_ok in Hst.
  destruct (state p) eqn:Hs; try contradiction.
  - unfold ini_parser_parse_document_start. explore.
    all: facts_leaf.
  - unfold ini_parser_parse_section_entry. explore.
    all: try solve [facts_leaf].
    replace (states p1) with [ini_PARSE_DOCUMENT_END_STATE]
      by (members; congruence).
    cbn [top_state last removelast]. explore. facts_leaf.
  - unfold ini_parser_parse_section_entry. explore.
    all: try solve [facts_leaf].
    replace (states p1) with [ini_PARSE_DOCUMENT_END_STATE]
      by (members; congruence).
    cbn [top_state last removelast]. explore. facts_leaf.
  - unfold ini_parser_parse_section_key. explore. all: facts_leaf.
  - unfold ini_parser_parse_section_key. explore. all: facts_leaf.
  - unfold ini_parser_parse_section_value, ini_parser_process_empty_scalar.
    explore. all: facts_leaf.
Qed.

Lemma call_facts_of_call (ev : ini_event_t) (p p' : ini_parser_t)
    (r : bool * ini_event_t) :
  inv p -> ~ halted p -> parse ev p = Done (r, p') -> call_facts p r p'.
Proof.
  intros Hinv Hn E. pose proof (call_keeps_facts ev p Hinv Hn) as W.
  unfold wp in W. now rewrite E in W.
Qed.

Lemma reachable_kept (p : ini_parser_t) :
  reachable parse p -> stack_bounded p /\ error_known p.
Proof.
  induction 1 as [toks | p ev r p' Hr IH E].
  - split; left; reflexivity.
  - destruct (halted_dec p) as [Hh|Hn].
    + rewrite (parse_halted ev p Hh) in E. now inversion E; subst.
    + destruct (call_facts_of_call ev p p' r (reachable_inv p Hr) Hn E)
        as (H1 & H2 & _). now split.
Qed.

(** X16. The state stack of a reachable parser is empty or holds the one
    return point pushed at the start of the document: it never grows beyond
    one entry. *)
Theorem state_stack_at_most_one (p : ini_parser_t) :
  reachable parse p ->
  (states p = [] \/ states p = [ini_PARSE_DOCUMENT_END_STATE]) /\
  (List.length (states p) <= 1)%nat.
Proof.
  intros Hr. destruct (reachable_kept p Hr) as [[H|H] _]; rewrite H; cbn; auto.
Qed.

(** X17. The only errors a reachable parser holds are the scanner's and
    Parser errors, and the problem of a Parser error is one of the six
    messages that parserc.go passes to [ini_parser_set_parser_error]. *)
Theorem recorded_errors_are_known (p : ini_parser_t) :
  reachable parse p ->
  error p = ini_NO_ERROR \/ error p = ini_SCANNER_ERROR \/
  (error p = ini_PARSER_ERROR /\ In (problem p) parser_problems).
Proof.
  intros Hr. exact (proj2 (reachable_kept p Hr)).
Qed.

(** X18. A call on a reachable parser that fails leaves the event erased; a
    call that succeeds delivers the erased event or an event of one of the
    four kinds Document-Start, Document-End, Section-Entry and Scalar. *)
Theorem events_of_calls (ev : ini_event_t) (p p' : ini_parser_t) (b : bool)
    (e : ini_event_t) :
  reachable parse p ->
  parse ev p = Done ((b, e), p') ->
  (b = false -> e = empty_event) /\
  (b = true -> e = empty_event \/ In (e_typ e) emitted_kinds).
Proof.
  intros Hr E. destruct (halted_dec p) as [Hh|Hn].
  - rewrite (parse_halted ev p Hh) in E. inversion E; subst.
    split; [discriminate | now left].
  - destruct (call_facts_of_call ev p p' (b, e) (reachable_inv p Hr) Hn E)
      as (_ & _ & H3 & H4 & _). cbn [fst snd] in *.
    split; [exact H3 | intros Hb; right; now apply H4].
Qed.

(** X19. The token queue is first in, first out across calls: after any
    number of calls the tokens still to come are the tokens that were to
    come before with a first part dropped, and the head of the queue has
    moved by the number of tokens dropped; it never moves back. *)
Theorem tokens_are_consumed_in_order (evs : list ini_event_t)
    (p p' : ini_parser_t) (rs : list (bool * ini_event_t)) :
  reachable parse p ->
  parse_all parse evs p = Done (rs, p') ->
  exists k, upcoming p' = skipn k (upcoming p) /\
            tokens_head p' = (k + tokens_head p)%nat.
Proof.
  revert p rs. induction evs as [|ev evs IH]; intros p rs Hr E;
    cbn [parse_all] in E.
  - inversion E; subst. exists 0%nat. now split.
  - destruct (parse ev p) as [[r p1]|msg] eqn:E1; [|discriminate].
    destruct (parse_all parse evs p1) as [[rs1 p2]|msg] eqn:E2; [|discriminate].
    inversion E; subst p2 rs; clear E.
    destruct (IH p1 rs1 (reach_call parse p ev r p1 Hr E1) E2) as (k2 & Hu2 & Hh2).
    destruct (halted_dec p) as [Hh|Hn].
    + rewrite (parse_halted ev p Hh) in E1. inversion E1; subst.
      now exists k2.
    + destruct (call_facts_of_call ev p p1 r (reachable_inv p Hr) Hn E1)
        as (_ & _ & _ & _ & (k1 & Hu1 & Hh1) & _).
      exists (k2 + k1)%nat. split.
      * rewrite Hu2, Hu1. apply skipn_skipn.
      * lia.
Qed.

(** X20. The calls come to an end: a reachable parser is halted after more
    than [calls_left] calls, that is after at most two calls for each token
    not consumed yet and up to two more; from then on every call returns
    the erased event.  None of these calls panics. *)
Theorem calls_come_to_an_end (evs : list ini_event_t) (p : ini_parser_t) :
  reachable parse p ->
  (calls_left p < List.length evs)%nat ->
  exists rs p', parse_all parse evs p = Done (rs, p') /\ halted p'.
Proof.
  revert p. induction evs as [|ev evs IH]; intros p Hr Hlen;
    cbn [List.length] in Hlen; [lia|].
  cbn [parse_all]. destruct (halted_dec p) as [Hh|Hn].
  - rewrite (parse_halted ev p Hh), (halted_forever evs p Hh). eauto.
  - destruct (wp_done _ _ _ (call_keeps_facts ev p (reachable_inv p Hr) Hn))
      as (r & p1 & E1 & _ & _ & _ & _ & _ & Hprog & _).
    rewrite E1. pose proof (reach_call parse p ev r p1 Hr E1) as Hr1.
    destruct Hprog as [Hh1|Hlt].
    + rewrite (halted_forever evs p1 Hh1). eauto.
    + destruct (IH p1 Hr1) as (rs & p' & E & Hh'); [lia|].
      rewrite E. eauto.
Qed.

Lemma reachable_past_start (p p' : ini_parser_t) (ev : ini_event_t)
    (r : bool * ini_event_t) :
  reachable parse p -> parse ev p = Done (r, p') -> past_start p'.
Proof.
  intros Hr E. destruct (halted_dec p) as [Hh|Hn].
  - rewrite (parse_halted ev p Hh) in E. inversion E; subst. now left.
  - apply (call_facts_of_call ev p p' r (reachable_inv p Hr) Hn E).
Qed.

Lemma no_document_start_past_start (evs : list ini_event_t)
    (p p' : ini_parser_t) (rs : list (bool * ini_event_t)) :
  reachable parse p -> past_start p ->
  parse_all parse evs p = Done (rs, p') ->
  Forall (fun r => e_typ (snd r) <> ini_DOCUMENT_START_EVENT) rs.
Proof.
  revert p rs. induction evs as [|ev evs IH]; intros p rs Hr Hps E;
    cbn [parse_all] in E.
  - inversion E; subst. constructor.
  - destruct (parse ev p) as [[r p1]|msg] eqn:E1; [|discriminate].
    destruct (parse_all parse evs p1) as [[rs1 p2]|msg] eqn:E2; [|discriminate].
    inversion E; subst p2 rs; clear E.
    constructor.
    + destruct (halted_dec p) as [Hh|Hn].
      * rewrite (parse_halted ev p Hh) in E1. inversion E1; subst.
        cbn. discriminate.
      * destruct (call_facts_of_call ev p p1 r (reachable_inv p Hr) Hn E1)
          as (_ & _ & _ & _ & _ & _ & Hds & _).
        intros Hd. destruct Hps as [Hh|Hs]; [contradiction|].
        apply Hs, Hds, Hd.
    + apply (IH p1 rs1); auto.
      * exact (reach_call parse p ev r p1 Hr E1).
      * exact (reachable_past_start p p1 ev r Hr E1).
Qed.

(** X21. The Document-Start event is delivered by the first call on a fresh
    parser or not at all: none of the later calls delivers one, whatever the
    token stream is. *)
Theorem document_start_only_first (toks : list ini_token_t)
    (ev : ini_event_t) (evs : list ini_event_t) (r : bool * ini_event_t)
    (rs : list (bool * ini_event_t)) (p' : ini_parser_t) :
  parse_all parse (ev :: evs) (initial_parser toks) = Done (r :: rs, p') ->
  Forall (fun x => e_typ (snd x) <> ini_DOCUMENT_START_EVENT) rs.
Proof.
  intros E. cbn [parse_all] in E.
  destruct (parse ev (initial_parser toks)) as [[r1 p1]|msg] eqn:E1;
    [|discriminate].
  destruct (parse_all parse evs p1) as [[rs1 p2]|msg] eqn:E2; [|discriminate].
  inversion E; subst; clear E.
  pose proof (reach_initial parse toks) as Hr0.
  apply (no_document_start_past_start evs p1 p' rs).
  - exact (reach_call parse _ ev r p1 Hr0 E1).
  - exact (reachable_past_start _ p1 ev r Hr0 E1).
  - exact E2.
Qed.

(** *** Runs over well-formed token streams *)

Local Abbreviation props_events := (properties_events ini_NULL_TAG analyzeTag).
Local Abbreviation sec_events :=
  (section_events ini_SECTION_TAG ini_SECTION_INHERIT_TAG ini_NULL_TAG analyzeTag).
Local Abbreviation secs_events :=
  (sections_events ini_SECTION_TAG ini_SECTION_INHERIT_TAG ini_NULL_TAG analyzeTag).
Local Abbreviation doc_events :=
  (document_events ini_SECTION_TAG ini_SECTION_INHERIT_TAG ini_NULL_TAG analyzeTag).

Lemma parse_erases_event (ev ev' : ini_event_t) (p : ini_parser_t) :
  parse ev p = parse ev' p.
Proof. reflexivity. Qed.

Lemma runs_nil (p : ini_parser_t) : runs parse p [] p.
Proof.
  intros evs H. destruct evs; [reflexivity | discriminate].
Qed.

Lemma runs_cons (ev : ini_event_t) (p p1 p' : ini_parser_t) (e : ini_event_t)
    (es : list ini_event_t) :
  parse ev p = Done ((true, e), p1) -> runs parse p1 es p' ->
  runs parse p (e :: es) p'.
Proof.
  intros E1 H evs Hlen. destruct evs as [|ev0 evs]; [discriminate|].
  cbn [parse_all map]. rewrite (parse_erases_event ev0 ev), E1.
  rewrite (H evs) by (cbn in Hlen; lia). reflexivity.
Qed.

Lemma runs_app (p p1 p2 : ini_parser_t) (es1 es2 : list ini_event_t) :
  runs parse p es1 p1 -> runs parse p1 es2 p2 ->
  runs parse p (es1 ++ es2) p2.
Proof.
  revert p. induction es1 as [|e es1 IH]; intros p H1 H2.
  - specialize (H1 [] eq_refl). cbn in H1. inversion H1; subst. exact H2.
  - intros evs Hlen. destruct evs as [|ev evs]; [discriminate|].
    pose proof (H1 (ev :: repeat empty_event (List.length es1))) as H1'.
    cbn [parse_all map List.length] in H1'.
    rewrite repeat_length in H1'. specialize (H1' eq_refl).
    destruct (parse ev p) as [[r q]|msg] eqn:E; [|discriminate].
    destruct (parse_all parse (repeat empty_event (List.length es1)) q)
      as [[rs q']|msg] eqn:E'; [|discriminate].
    inversion H1'; subst r rs q'; clear H1'.
    assert (Hq : runs parse q es1 p1).
    { intros evs1 Hl1.
      pose proof (H1 (ev :: evs1)) as H1''.
      cbn [parse_all map List.length] in H1''.
      rewrite E in H1''. specialize (H1'' (f_equal S Hl1)).
      destruct (parse_all parse evs1 q) as [[rs q']|msg]; [|discriminate].
      inversion H1''; subst. reflexivity. }
    cbn [parse_all map app]. rewrite E.
    rewrite (IH q Hq H2 evs) by (cbn in Hlen; lia). reflexivity.
Qed.

Lemma runs_one (p p' : ini_parser_t) (e : ini_event_t) :
  (exists ev, parse ev p = Done ((true, e), p')) -> runs parse p [e] p'.
Proof.
  intros [ev E]. apply (runs_cons ev p p' p' e [] E), runs_nil.
Qed.

(** The single steps, from a parser that is live to one that is live. *)
Lemma key_scalar_step (first : bool) (ev : ini_event_t) (p : ini_parser_t)
    (key name : ini_token_t) (ts : list ini_token_t) :
  live_in (key_state first) p ->
  upcoming p = key :: name :: ts ->
  typ key = ini_SECTION_KEY_TOKEN ->
  typ name = ini_SCALAR_TOKEN ->
  exists p',
    parse ev p = Done ((true, scalar_event analyzeTag key name), p') /\
    (live_in ini_PARSE_SECTION_VALUE_STATE p' /\
     states p' = states p /\ upcoming p' = ts).
Proof.
  intros Hlive Hup Hk Hn.
  assert (E : parse ev p = section_key empty_event first p)
    by (destruct first; [apply parse_first_key | apply parse_key]; assumption).
  rewrite E. destruct Hlive as (Hwf & Hf & He & Hs).
  to_wp. unfold ini_parser_parse_section_key, scalar_event. run.
  unfold live_in. members.
  splits; try assumption; try reflexivity; congruence.
Qed.

Lemma value_scalar_step (ev : ini_event_t) (p : ini_parser_t)
    (m v : ini_token_t) (ts : list ini_token_t) :
  live_in ini_PARSE_SECTION_VALUE_STATE p ->
  upcoming p = m :: v :: ts ->
  typ m = ini_SECTION_VALUE_TOKEN ->
  typ v = ini_SCALAR_TOKEN ->
  exists p',
    parse ev p = Done ((true, scalar_event analyzeTag m v), p') /\
    (live_in ini_PARSE_SECTION_KEY_STATE p' /\
     states p' = states p /\ upcoming p' = ts).
Proof.
  intros Hlive Hup Hm Hv. rewrite parse_value by assumption.
  destruct Hlive as (Hwf & Hf & He & Hs).
  to_wp. unfold ini_parser_parse_section_value, scalar_event. run.
  unfold live_in. members.
  splits; try assumption; try reflexivity; congruence.
Qed.

Lemma value_missing_step (ev : ini_event_t) (p : ini_parser_t)
    (m t : ini_token_t) (ts : list ini_token_t) :
  live_in ini_PARSE_SECTION_VALUE_STATE p ->
  upcoming p = m :: t :: ts ->
  typ m = ini_SECTION_VALUE_TOKEN ->
  typ t <> ini_SCALAR_TOKEN ->
  exists p',
    parse ev p = Done ((true, empty_scalar_event ini_NULL_TAG t), p') /\
    (live_in ini_PARSE_SECTION_KEY_STATE p' /\
     states p' = states p /\ upcoming p' = t :: ts).
Proof.
  intros Hlive Hup Hm Ht. rewrite parse_value by assumption.
  destruct Hlive as (Hwf & Hf & He & Hs).
  to_wp. unfold ini_parser_parse_section_value,
    ini_parser_process_empty_scalar, empty_scalar_event.
  run. unfold live_in. members. splits; try assumption; congruence.
Qed.

Lemma boundary_step (first : bool) (ev : ini_event_t) (p : ini_parser_t)
    (t : ini_token_t) (ts : list ini_token_t) :
  live_in (key_state first) p ->
  upcoming p = t :: ts ->
  typ t <> ini_SECTION_KEY_TOKEN ->
  exists p',
    parse ev p = Done ((true, boundary_event t), p') /\
    (live_in ini_PARSE_SECTION_ENTRY_STATE p' /\
     states p' = states p /\ upcoming p' = t :: ts).
Proof.
  intros Hlive Hup Ht.
  assert (E : parse ev p = section_key empty_event first p)
    by (destruct first; [apply parse_first_key | apply parse_key]; assumption).
  rewrite E. destruct Hlive as (Hwf & Hf & He & Hs).
  destruct (section_key_boundary empty_event first p t ts Hwf Hup Ht)
    as (p1 & _ & E1 & Hwf1 & Hup1 & Hc & Hp).
  exists (set_state ini_PARSE_SECTION_ENTRY_STATE p1).
  split; [exact E1|]. unfold live_in. members.
  splits; try assumption; congruence.
Qed.

Lemma header_step (first : bool) (ev : ini_event_t) (p : ini_parser_t)
    (s : section) (ts : list ini_token_t) :
  live_in (entry_state first) p ->
  section_ok s = true ->
  upcoming p = section_tokens s ++ ts ->
  exists p',
    parse ev p =
      Done ((true, header_event ini_SECTION_TAG ini_SECTION_INHERIT_TAG s), p') /\
    (live_in ini_PARSE_SECTION_FIRST_KEY_STATE p' /\
     states p' = states p /\
     upcoming p' = List.concat (map property_tokens (sec_properties s)) ++ ts).
Proof.
  intros Hlive Hok Hup. rewrite (parse_entry_state first) by assumption.
  destruct Hlive as (Hwf & Hf & He & Hs).
  unfold section_ok in Hok. rewrite !andb_true_iff in Hok.
  destruct Hok as ((((H1 & H2) & H3) & H4) & _).
  apply typ_is_true in H1, H2, H4.
  unfold section_tokens, header_event in *.
  destruct (sec_inherit s) as [[marker parent]|].
  - apply andb_true_iff in H3. destruct H3 as [H5 H6].
    apply typ_is_true in H5, H6. cbn [app] in Hup.
    to_wp. unfold ini_parser_parse_section_entry. run.
    rewrite !append_each_app, <- app_assoc.
    unfold live_in. members.
    splits; try assumption; try reflexivity; congruence.
  - cbn [app] in Hup.
    to_wp. unfold ini_parser_parse_section_entry. run.
    unfold live_in. members.
    splits; try assumption; try reflexivity; congruence.
Qed.

Lemma default_step (ev : ini_event_t) (p : ini_parser_t) (t : ini_token_t)
    (ts : list ini_token_t) :
  live_in ini_PARSE_SECTION_FIRST_ENTRY_STATE p ->
  upcoming p = t :: ts ->
  typ t = ini_SECTION_KEY_TOKEN ->
  exists p',
    parse ev p =
      Done ((true,
             mk_event ini_SECTION_ENTRY_EVENT (start_mark t) (start_mark t)
               (list_byte_of_string "default")
               (list_byte_of_string ini_SECTION_TAG) false 0), p') /\
    (live_in ini_PARSE_SECTION_FIRST_KEY_STATE p' /\
     states p' = states p /\ upcoming p' = t :: ts).
Proof.
  intros Hlive Hup Ht. rewrite parse_first_entry by assumption.
  destruct Hlive as (Hwf & Hf & He & Hs).
  to_wp. unfold ini_parser_parse_section_entry. run.
  unfold live_in. members. splits; try assumption; congruence.
Qed.

Lemma document_end_step (first : bool) (ev : ini_event_t) (p : ini_parser_t)
    (t : ini_token_t) (ts : list ini_token_t) :
  live_in (entry_state first) p ->
  upcoming p = t :: ts ->
  typ t = ini_DOCUMENT_END_TOKEN ->
  states p = [ini_PARSE_DOCUMENT_END_STATE] ->
  exists p',
    parse ev p =
      Done ((true,
             mk_event ini_DOCUMENT_END_EVENT (start_mark t) (end_mark t)
               [] [] false 0), p') /\
    (state p' = ini_PARSE_DOCUMENT_END_STATE /\ states p' = [] /\
     error p' = ini_NO_ERROR /\ upcoming p' = t :: ts).
Proof.
  intros Hlive Hup Ht Hst. rewrite (parse_entry_state first) by assumption.
  destruct Hlive as (Hwf & Hf & He & Hs).
  to_wp. unfold ini_parser_parse_section_entry.
  do 2 wp_step. intros p1 Hwf1 Hav1 Hup1 Hc1 Hp1. simp_typ.
  do 2 wp_step.
  replace (states p1) with [ini_PARSE_DOCUMENT_END_STATE]
    by (members; congruence).
  cbn [top_state last removelast]. run. members.
  splits; try assumption; try reflexivity; congruence.
Qed.

(** The properties of a section, one after the other. *)
Lemma properties_run (prs : list property) (following : ini_token_t)
    (rest : list ini_token_t) :
  forallb property_ok prs = true ->
  typ following <> ini_SCALAR_TOKEN ->
  forall (first : bool) (p : ini_parser_t),
    live_in (key_state first) p ->
    upcoming p = List.concat (map property_tokens prs) ++ following :: rest ->
    exists first' p',
      runs parse p (props_events prs following) p' /\
      live_in (key_state first') p' /\
      states p' = states p /\
      upcoming p' = following :: rest.
Proof.
  intros Hok Hfoll. induction prs as [|pr prs IH]; intros first p Hlive Hup.
  - exists first, p. splits; auto. apply runs_nil.
  - cbn [forallb] in Hok. apply andb_true_iff in Hok. destruct Hok as [Hpr Hprs].
    specialize (IH Hprs).
    unfold property_ok in Hpr. rewrite !andb_true_iff in Hpr.
    destruct Hpr as (((Hk & Hn) & Hm) & Hv).
    apply typ_is_true in Hk, Hn, Hm.
    cbn [map List.concat] in Hup. unfold property_tokens at 1 in Hup.
    cbn [properties_events].
    destruct (pr_value pr) as [v|] eqn:Ev.
    + apply typ_is_true in Hv. cbn [app] in Hup.
      destruct (key_scalar_step first empty_event p _ _ _ Hlive Hup Hk Hn)
        as (p1 & E1 & Hl1 & Hs1 & Hu1).
      destruct (value_scalar_step empty_event p1 _ _ _ Hl1 Hu1 Hm Hv)
        as (p2 & E2 & Hl2 & Hs2 & Hu2).
      destruct (IH false p2 Hl2 Hu2) as (first' & p' & Hr & Hl' & Hs' & Hu').
      exists first', p'. splits; auto; [|congruence].
      apply (runs_cons empty_event p p1 p' _ _ E1).
      apply (runs_cons empty_event p1 p2 p' _ _ E2). exact Hr.
    + cbn [app] in Hup.
      destruct (key_scalar_step first empty_event p _ _ _ Hlive Hup Hk Hn)
        as (p1 & E1 & Hl1 & Hs1 & Hu1).
      assert (Hnext : exists ts,
                 List.concat (map property_tokens prs) ++ following :: rest =
                 match prs with
                 | [] => following
                 | q :: _ => pr_key q
                 end :: ts /\
                 typ match prs with
                     | [] => following
                     | q :: _ => pr_key q
                     end <> ini_SCALAR_TOKEN).
      { destruct prs as [|q prs'].
        - exists rest. split; [reflexivity | exact Hfoll].
        - cbn [forallb] in Hprs. apply andb_true_iff in Hprs.
          destruct Hprs as [Hq _]. unfold property_ok in Hq.
          rewrite !andb_true_iff in Hq. destruct Hq as (((Hqk & _) & _) & _).
          apply typ_is_true in Hqk.
          eexists. split; [cbn [map List.concat]; unfold property_tokens at 1;
                           cbn [app]; reflexivity|].
          rewrite Hqk. discriminate. }
      destruct Hnext as (ts & Hts & Hnscalar).
      rewrite Hts in Hu1.
      destruct (value_missing_step empty_event p1 _ _ _ Hl1 Hu1 Hm Hnscalar)
        as (p2 & E2 & Hl2 & Hs2 & Hu2).
      rewrite <- Hts in Hu2.
      destruct (IH false p2 Hl2 Hu2) as (first' & p' & Hr & Hl' & Hs' & Hu').
      exists first', p'. splits; auto; [|congruence].
      apply (runs_cons empty_event p p1 p' _ _ E1).
      apply (runs_cons empty_event p1 p2 p' _ _ E2). exact Hr.
Qed.

Lemma section_run (s : section) (following : ini_token_t)
    (rest : list ini_token_t) (first : bool) (p : ini_parser_t) :
  section_ok s = true ->
  typ following <> ini_SCALAR_TOKEN ->
  typ following <> ini_SECTION_KEY_TOKEN ->
  live_in (entry_state first) p ->
  upcoming p = section_tokens s ++ following :: rest ->
  exists p',
    runs parse p (sec_events s following) p' /\
    live_in ini_PARSE_SECTION_ENTRY_STATE p' /\
    states p' = states p /\
    upcoming p' = following :: rest.
Proof.
  intros Hok Hns Hnk Hlive Hup.
  destruct (header_step first empty_event p s _ Hlive Hok Hup)
    as (p1 & E1 & Hl1 & Hs1 & Hu1).
  assert (Hprs : forallb property_ok (sec_properties s) = true).
  { unfold section_ok in Hok. rewrite !andb_true_iff in Hok. apply Hok. }
  destruct (properties_run (sec_properties s) following rest Hprs Hns true p1
              Hl1 Hu1) as (first' & p2 & Hr & Hl2 & Hs2 & Hu2).
  destruct (boundary_step first' empty_event p2 following rest Hl2 Hu2 Hnk)
    as (p3 & E3 & Hl3 & Hs3 & Hu3).
  exists p3. splits; auto; [|congruence].
  unfold section_events. apply (runs_cons empty_event p p1 p3 _ _ E1).
  apply (runs_app p1 p2 p3); [exact Hr|].
  apply runs_one. exists empty_event. exact E3.
Qed.

Lemma sections_run (ss : list section) (following : ini_token_t)
    (rest : list ini_token_t) :
  forallb section_ok ss = true ->
  typ following <> ini_SCALAR_TOKEN ->
  typ following <> ini_SECTION_KEY_TOKEN ->
  forall (first : bool) (p : ini_parser_t),
    live_in (entry_state first) p ->
    upcoming p = List.concat (map section_tokens ss) ++ following :: rest ->
    exists first' p',
      runs parse p (secs_events ss following) p' /\
      live_in (entry_state first') p' /\
      states p' = states p /\
      upcoming p' = following :: rest.
Proof.
  intros Hok Hns Hnk. induction ss as [|s ss IH]; intros first p Hlive Hup.
  - exists first, p. splits; auto. apply runs_nil.
  - cbn [forallb] in Hok. apply andb_true_iff in Hok. destruct Hok as [Hs Hss].
    specialize (IH Hss). cbn [map List.concat] in Hup.
    rewrite <- app_assoc in Hup. cbn [sections_events].
    assert (Hnext : exists ts,
               List.concat (map section_tokens ss) ++ following :: rest =
               match ss with
               | [] => following
               | s' :: _ => sec_start s'
               end :: ts /\
               typ match ss with
                   | [] => following
                   | s' :: _ => sec_start s'
                   end <> ini_SCALAR_TOKEN /\
               typ match ss with
                   | [] => following
                   | s' :: _ => sec_start s'
                   end <> ini_SECTION_KEY_TOKEN).
    { destruct ss as [|s' ss'].
      - exists rest. splits; auto.
      - cbn [forallb] in Hss. apply andb_true_iff in Hss.
        destruct Hss as [Hs' _]. unfold section_ok in Hs'.
        rewrite !andb_true_iff in Hs'. destruct Hs' as ((((H1 & _) & _) & _) & _).
        apply typ_is_true in H1.
        eexists. split; [cbn [map List.concat]; unfold section_tokens at 1;
                         cbn [app]; reflexivity|].
        rewrite H1. split; discriminate. }
    destruct Hnext as (ts & Hts & Hnext_s & Hnext_k).
    rewrite Hts in Hup.
    destruct (section_run s _ ts first p Hs Hnext_s Hnext_k Hlive Hup)
      as (p1 & Hr1 & Hl1 & Hs1 & Hu1).
    rewrite <- Hts in Hu1.
    destruct (IH false p1 Hl1 Hu1) as (first' & p' & Hr & Hl' & Hs' & Hu').
    exists first', p'. splits; auto; [|congruence].
    apply (runs_app p p1 p'); assumption.
Qed.

Lemma bare_run (prs : list property) (following : ini_token_t)
    (rest : list ini_token_t) (p : ini_parser_t) :
  forallb property_ok prs = true ->
  typ following <> ini_SCALAR_TOKEN ->
  typ following <> ini_SECTION_KEY_TOKEN ->
  live_in ini_PARSE_SECTION_FIRST_ENTRY_STATE p ->
  upcoming p = List.concat (map property_tokens prs) ++ following :: rest ->
  exists first' p',
    runs parse p (bare_events ini_SECTION_TAG ini_NULL_TAG analyzeTag prs following) p' /\
    live_in (entry_state first') p' /\
    states p' = states p /\
    upcoming p' = following :: rest.
Proof.
  intros Hok Hns Hnk Hlive Hup. destruct prs as [|pr prs].
  - exists true, p. splits; auto. apply runs_nil.
  - assert (Hk : typ (pr_key pr) = ini_SECTION_KEY_TOKEN).
    { cbn [forallb] in Hok. apply andb_true_iff in Hok. destruct Hok as [Hpr _].
      unfold property_ok in Hpr. rewrite !andb_true_iff in Hpr.
      apply typ_is_true, Hpr. }
    assert (Hup' : exists ts, upcoming p = pr_key pr :: ts).
    { rewrite Hup. cbn [map List.concat]. unfold property_tokens at 1.
      cbn [app]. eauto. }
    destruct Hup' as (ts & Hup').
    destruct (default_step empty_event p _ ts Hlive Hup' Hk)
      as (p1 & E1 & Hl1 & Hs1 & Hu1).
    rewrite <- Hup', Hup in Hu1.
    destruct (properties_run (pr :: prs) following rest Hok Hns true p1 Hl1 Hu1)
      as (first' & p2 & Hr & Hl2 & Hs2 & Hu2).
    destruct (boundary_step first' empty_event p2 following rest Hl2 Hu2 Hnk)
      as (p3 & E3 & Hl3 & Hs3 & Hu3).
    exists false, p3. splits; auto; [|congruence].
    unfold bare_events. apply (runs_cons empty_event p p1 p3 _ _ E1).
    apply (runs_app p1 p2 p3); [exact Hr|].
    apply runs_one. exists empty_event. exact E3.
Qed.

(** X22. A well-formed token stream, that is document-start, properties
    (key, name, value marker and an optional value), sections (header with
    or without the inheritance clause, then properties) and document-end,
    is parsed without error into exactly these events, in this order: the
    Document-Start event; when properties come before the first header, the
    default section, two Scalar events for each of them and a boundary
    event; for each section its header event, two Scalar events for each
    property (an empty one where the value is missing) and a boundary event;
    the Document-End event.  The parser ends in the Document-End state with
    an empty stack. *)
Theorem well_formed_document_events (d : document) (evs : list ini_event_t) :
  document_ok d = true ->
  List.length evs = List.length (doc_events d) ->
  exists p',
    parse_all parse evs (initial_parser (document_tokens d)) =
      Done (map (fun e => (true, e)) (doc_events d), p') /\
    state p' = ini_PARSE_DOCUMENT_END_STATE /\
    states p' = [] /\
    error p' = ini_NO_ERROR.
Proof.
  intros Hok Hlen. unfold document_ok in Hok. rewrite !andb_true_iff in Hok.
  destruct Hok as (((Hds & Hbare) & Hsecs) & Hde).
  apply typ_is_true in Hds, Hde.
  destruct (document_start_event empty_event (initial_parser (document_tokens d))
              (doc_start d) _ (initial_parser_live _) eq_refl Hds)
    as (p1 & E1 & Hl1 & _ & Hs1 & Hu1).
  cbn [states initial_parser app] in Hs1.
  set (after_bare := match doc_sections d with
                     | [] => doc_end d
                     | s :: _ => sec_start s
                     end).
  assert (Hab : exists ts,
             List.concat (map section_tokens (doc_sections d)) ++ [doc_end d] =
             after_bare :: ts /\
             typ after_bare <> ini_SCALAR_TOKEN /\
             typ after_bare <> ini_SECTION_KEY_TOKEN).
  { unfold after_bare. destruct (doc_sections d) as [|s ss].
    - exists []. rewrite Hde. splits; [reflexivity | discriminate | discriminate].
    - cbn [forallb] in Hsecs. apply andb_true_iff in Hsecs.
      destruct Hsecs as [Hs _]. unfold section_ok in Hs.
      rewrite !andb_true_iff in Hs. destruct Hs as ((((H1 & _) & _) & _) & _).
      apply typ_is_true in H1.
      eexists. split; [cbn [map List.concat]; unfold section_tokens at 1;
                       cbn [app]; reflexivity|].
      rewrite H1. split; discriminate. }
  destruct Hab as (ts & Hts & Hab_s & Hab_k).
  rewrite Hts in Hu1.
  destruct (bare_run (doc_bare d) after_bare ts p1 Hbare Hab_s Hab_k Hl1 Hu1)
    as (first2 & p2 & Hr2 & Hl2 & Hs2 & Hu2).
  rewrite <- Hts in Hu2.
  assert (Hde_s : typ (doc_end d) <> ini_SCALAR_TOKEN) by (rewrite Hde; discriminate).
  assert (Hde_k : typ (doc_end d) <> ini_SECTION_KEY_TOKEN)
    by (rewrite Hde; discriminate).
  destruct (sections_run (doc_sections d) (doc_end d) [] Hsecs Hde_s Hde_k
              first2 p2 Hl2 Hu2)
    as (first3 & p3 & Hr3 & Hl3 & Hs3 & Hu3).
  destruct (document_end_step first3 empty_event p3 (doc_end d) [] Hl3 Hu3 Hde)
    as (p4 & E4 & Hst4 & Hss4 & He4 & _); [congruence|].
  exists p4. splits; auto.
  assert (R : runs parse (initial_parser (document_tokens d)) (doc_events d) p4).
  { unfold document_events. fold after_bare.
    apply (runs_cons empty_event _ p1 p4 _ _ E1).
    apply (runs_app p1 p2 p4); [exact Hr2|].
    apply (runs_app p2 p3 p4); [exact Hr3|].
    apply runs_one. exists empty_event. exact E4. }
  exact (R evs Hlen).
Qed.

(** *** Names of token kinds and parser states *)

(** X23. The name of a declared token kind determines the kind: no two
    declared kinds print the same, and none prints as the unknown token. *)
Theorem token_type_names_distinct (a b : ini_token_type_t) :
  declared_token_type a = true ->
  declared_token_type b = true ->
  ini_token_type_t_String a <> "<unknown token>" /\
  (ini_token_type_t_String a = ini_token_type_t_String b -> a = b).
Proof.
  intros Ha Hb. split.
  - destruct a; try discriminate Ha; cbn; discriminate.
  - destruct a; try discriminate Ha; destruct b; try discriminate Hb;
      cbn; intros H; first [reflexivity | discriminate H].
Qed.

(** X24. The name of a parser state does not determine the state: among the
    declared states the name of the Document-End state is printed for
    exactly two, Document-End and Stream-End, and the unknown name for
    exactly one, Section-First-Entry, which has no case of its own. *)
Theorem parser_state_names_collide (s : ini_parser_state_t) :
  declared_parser_state s = true ->
  (ini_parser_state_t_String s = "ini_PARSE_DOCUMENT_END_STATE" <->
   s = ini_PARSE_DOCUMENT_END_STATE \/ s = ini_PARSE_STREAM_END_STATE) /\
  (ini_parser_state_t_String s = "<unknown parser state>" <->
   s = ini_PARSE_SECTION_FIRST_ENTRY_STATE).
Proof.
  intros Hs.
  destruct s; try discriminate Hs; cbn; split; split;
    try (intros H; discriminate H);
    try (intros [H|H]; discriminate H);
    try (intros _; reflexivity);
    try (intros _; now left); try (intros _; now right).
Qed.

End Properties.

(** ** Runs on concrete token streams *)

Import Sample.

Lemma in_state_live (s : ini_parser_state_t) (toks : list ini_token_t) :
  live_in s (in_state s toks).
Proof.
  unfold live_in, wf; cbn.
  split; [split; [apply le_n | discriminate] | repeat split].
Defined.

(** A section without properties gives a boundary event, not an error; the
    calls after the Document-End event return the erased event. *)
Example empty_section_run :
  summary (Sample.parse_all (repeat empty_event 6)
             (initial_parser empty_section_stream)) =
  [ (true, ini_DOCUMENT_START_EVENT, []);
    (true, ini_SECTION_ENTRY_EVENT, list_byte_of_string "s");
    (true, ini_SECTION_ENTRY_EVENT, []);
    (true, ini_DOCUMENT_END_EVENT, []);
    (true, ini_NO_EVENT, []);
    (true, ini_NO_EVENT, []) ].
Proof. vm_compute. reflexivity. Qed.

(** One failure, then success with the erased event. *)
Example unterminated_run :
  summary (Sample.parse_all (repeat empty_event 4)
             (initial_parser unterminated_stream)) =
  [ (true, ini_DOCUMENT_START_EVENT, []);
    (false, ini_NO_EVENT, []);
    (true, ini_NO_EVENT, []);
    (true, ini_NO_EVENT, []) ].
Proof. vm_compute. reflexivity. Qed.

(** The default section comes before the key's scalar event. *)
Example bare_key_run :
  summary (Sample.parse_all (repeat empty_event 6)
             (initial_parser bare_key_stream)) =
  [ (true, ini_DOCUMENT_START_EVENT, []);
    (true, ini_SECTION_ENTRY_EVENT, list_byte_of_string "default");
    (true, ini_SCALAR_EVENT, list_byte_of_string "k");
    (true, ini_SCALAR_EVENT, list_byte_of_string "v");
    (true, ini_SECTION_ENTRY_EVENT, []);
    (true, ini_DOCUMENT_END_EVENT, []) ].
Proof. vm_compute. reflexivity. Qed.

(** *** Instances of the theorems *)

Lemma sticky_end_of_events_witness :
  exists b e p',
    Sample.parse empty_event
      (initial_parser [tok ini_SCALAR_TOKEN 0 1 "x"]) = Done ((b, e), p') /\
    ((e_typ e = ini_DOCUMENT_END_EVENT \/ error p' <> ini_NO_ERROR \/
      state p' = ini_PARSE_DOCUMENT_END_STATE) ->
     forall evs,
       Sample.parse_all evs p' =
         Done (map (fun _ => (true, empty_event)) evs, p')) /\
    (b = false ->
     error (initial_parser [tok ini_SCALAR_TOKEN 0 1 "x"]) = ini_NO_ERROR /\
     error p' <> ini_NO_ERROR).
Proof.
  apply (sticky_end_of_events section_tag inherit_tag null_tag classify
           empty_event (initial_parser [tok ini_SCALAR_TOKEN 0 1 "x"])).
  apply reach_initial.
Defined.

Lemma default_section_synthesis_witness :
  exists p',
    Sample.parse empty_event
      (in_state ini_PARSE_SECTION_FIRST_ENTRY_STATE
         [tok ini_SECTION_KEY_TOKEN 4 4 ""; tok ini_SCALAR_TOKEN 4 5 "k"]) =
      Done ((true,
             mk_event ini_SECTION_ENTRY_EVENT (mk_mark 4 0 4) (mk_mark 4 0 4)
               (list_byte_of_string "default")
               (list_byte_of_string section_tag) false 0), p') /\
    state p' = ini_PARSE_SECTION_FIRST_KEY_STATE /\
    tokens_head p' = 0%nat.
Proof.
  destruct (default_section_synthesis section_tag inherit_tag null_tag classify
              empty_event
              (in_state ini_PARSE_SECTION_FIRST_ENTRY_STATE
                 [tok ini_SECTION_KEY_TOKEN 4 4 ""; tok ini_SCALAR_TOKEN 4 5 "k"])
              (tok ini_SECTION_KEY_TOKEN 4 4 "") [tok ini_SCALAR_TOKEN 4 5 "k"]
              (in_state_live _ _) eq_refl eq_refl)
    as (p' & E & (_ & _ & _ & Hs) & Hh & _).
  exists p'. split; [exact E | split; [exact Hs | exact Hh]].
Defined.

Lemma document_end_event_without_consuming_witness :
  exists p',
    Sample.parse empty_event
      (in_state ini_PARSE_SECTION_ENTRY_STATE
         [tok ini_DOCUMENT_END_TOKEN 9 9 ""]) =
      Done ((true,
             mk_event ini_DOCUMENT_END_EVENT (mk_mark 9 0 9) (mk_mark 9 0 9)
               [] [] false 0), p') /\
    state p' = ini_PARSE_DOCUMENT_END_STATE /\
    document_end_produced p' = false /\
    tokens_head p' = 0%nat.
Proof.
  destruct (document_end_event_without_consuming section_tag inherit_tag
              null_tag classify false empty_event
              (in_state ini_PARSE_SECTION_ENTRY_STATE
                 [tok ini_DOCUMENT_END_TOKEN 9 9 ""])
              (tok ini_DOCUMENT_END_TOKEN 9 9 "") []
              [] ini_PARSE_DOCUMENT_END_STATE
              (in_state_live _ _) eq_refl eq_refl eq_refl)
    as (p' & E & _ & Hs & _ & _ & Hf & Hh & _).
  exists p'. repeat split; assumption.
Defined.

(** C2 as the specification words it does not hold: after the step on a document-end
    lookahead the token is still the next one, the head of the queue has not
    moved and [document_end_produced] is false. *)
Lemma document_end_consumed_counterexample :
  exists e p',
    Sample.parse empty_event
      (in_state ini_PARSE_SECTION_ENTRY_STATE
         [tok ini_DOCUMENT_END_TOKEN 9 9 ""]) = Done ((true, e), p') /\
    e_typ e = ini_DOCUMENT_END_EVENT /\
    document_end_produced p' = false /\
    tokens_head p' = 0%nat /\
    tokens_parsed p' = 0 /\
    upcoming p' = [tok ini_DOCUMENT_END_TOKEN 9 9 ""].
Proof.
  eexists; eexists. split; [vm_compute; reflexivity|].
  repeat split.
Qed.


Lemma section_key_boundary_event_witness :
  exists p',
    Sample.parse empty_event
      (in_state ini_PARSE_SECTION_KEY_STATE
         [tok ini_SECTION_START_TOKEN 7 8 "["]) =
      Done ((true,
             mk_event ini_SECTION_ENTRY_EVENT (mk_mark 7 0 7) (mk_mark 8 0 8)
               [] [] false 0), p') /\
    state p' = ini_PARSE_SECTION_ENTRY_STATE /\
    tokens_head p' = 0%nat.
Proof.
  destruct (section_key_boundary_event section_tag inherit_tag null_tag classify
              empty_event
              (in_state ini_PARSE_SECTION_KEY_STATE
                 [tok ini_SECTION_START_TOKEN 7 8 "["])
              (tok ini_SECTION_START_TOKEN 7 8 "[") []
              (in_state_live _ _) eq_refl
              (fun H => ltac:(discriminate H)))
    as (p' & E & (_ & _ & _ & Hs) & Hh & _).
  exists p'. split; [exact E | split; [exact Hs | exact Hh]].
Defined.

(** C5 as the specification words it does not hold: on a section-start token from column 7 to
    column 8 the boundary event runs from 7 to 8, its range is not of width
    zero. *)
Lemma boundary_zero_width_counterexample :
  exists e p',
    Sample.parse empty_event
      (in_state ini_PARSE_SECTION_KEY_STATE
         [tok ini_SECTION_START_TOKEN 7 8 "["]) = Done ((true, e), p') /\
    e_typ e = ini_SECTION_ENTRY_EVENT /\
    e_start_mark e = mk_mark 7 0 7 /\
    e_end_mark e = mk_mark 8 0 8 /\
    e_start_mark e <> e_end_mark e.
Proof.
  eexists; eexists. split; [vm_compute; reflexivity|].
  repeat split. discriminate.
Qed.



Lemma missing_value_defaulting_witness :
  exists p',
    Sample.parse empty_event
      (in_state ini_PARSE_SECTION_VALUE_STATE
         [ tok ini_SECTION_VALUE_TOKEN 1 2 "=";
           tok ini_SECTION_KEY_TOKEN 5 5 "" ]) =
      Done ((true,
             mk_event ini_SCALAR_EVENT (mk_mark 5 0 5) (mk_mark 5 0 5) []
               (list_byte_of_string null_tag) false
               ini_PLAIN_SCALAR_STYLE), p') /\
    state p' = ini_PARSE_SECTION_KEY_STATE /\
    upcoming p' = [tok ini_SECTION_KEY_TOKEN 5 5 ""].
Proof.
  destruct (missing_value_defaulting section_tag inherit_tag null_tag classify
              empty_event
              (in_state ini_PARSE_SECTION_VALUE_STATE
                 [ tok ini_SECTION_VALUE_TOKEN 1 2 "=";
                   tok ini_SECTION_KEY_TOKEN 5 5 "" ])
              (tok ini_SECTION_VALUE_TOKEN 1 2 "=")
              (tok ini_SECTION_KEY_TOKEN 5 5 "") []
              (in_state_live _ _) eq_refl eq_refl
              (fun H => ltac:(discriminate H)))
    as (p' & E & (_ & _ & _ & Hs) & _ & _ & Hu).
  exists p'. split; [exact E | split; [exact Hs | exact Hu]].
Defined.

Lemma unterminated_header_error_witness :
  exists p1 p2,
    Sample.parse empty_event (initial_parser unterminated_stream) =
      Done ((true,
             mk_event ini_DOCUMENT_START_EVENT (mk_mark 0 0 0) (mk_mark 0 0 0)
               [] [] false 0), p1) /\
    Sample.parse empty_event p1 = Done ((false, empty_event), p2) /\
    error p2 = ini_PARSER_ERROR /\
    problem p2 = "did not find expected <section-end>" /\
    problem_mark p2 = mk_mark 8 0 8.
Proof.
  apply (unterminated_header_error section_tag inherit_tag null_tag classify
           empty_event empty_event
           (tok ini_DOCUMENT_START_TOKEN 0 0 "")
           (tok ini_SECTION_START_TOKEN 0 1 "[")
           (tok ini_SCALAR_TOKEN 1 8 "section")
           (tok ini_DOCUMENT_END_TOKEN 8 8 "") []
           eq_refl eq_refl eq_refl
           (fun H => ltac:(discriminate H))
           (fun H => ltac:(discriminate H))).
Defined.

Lemma first_key_boundary_like_key_witness :
  exists p',
    Sample.parse empty_event
      (in_state ini_PARSE_SECTION_FIRST_KEY_STATE
         [tok ini_DOCUMENT_END_TOKEN 3 3 ""]) =
      Done ((true, boundary_event (tok ini_DOCUMENT_END_TOKEN 3 3 "")), p') /\
    Sample.parse empty_event
      (set_state ini_PARSE_SECTION_KEY_STATE
         (in_state ini_PARSE_SECTION_FIRST_KEY_STATE
            [tok ini_DOCUMENT_END_TOKEN 3 3 ""])) =
      Done ((true, boundary_event (tok ini_DOCUMENT_END_TOKEN 3 3 "")), p') /\
    error p' = ini_NO_ERROR.
Proof.
  destruct (first_key_boundary_like_key section_tag inherit_tag null_tag classify
              empty_event
              (in_state ini_PARSE_SECTION_FIRST_KEY_STATE
                 [tok ini_DOCUMENT_END_TOKEN 3 3 ""])
              (tok ini_DOCUMENT_END_TOKEN 3 3 "") []
              (in_state_live _ _) eq_refl
              (fun H => ltac:(discriminate H)))
    as (p' & E & E' & (_ & _ & He & _) & _).
  exists p'. split; [exact E | split; [exact E' | exact He]].
Defined.


(** On a stream that breaks the contract, with a scalar after the
    document-end token, a further skip overwrites the flag: it is the
    contract of the token source and the gate of the driver that keep the
    flag set, not [skip_token] itself. *)
Example skip_overwrites_flag :
  let toks := [ tok ini_DOCUMENT_END_TOKEN 0 0 ""; tok ini_SCALAR_TOKEN 0 1 "x" ] in
  document_end_is_last toks = false /\
  document_end_produced
    (outcome (Sample.run_ops
                [op_peek; op_skip] (initial_parser toks))) = true /\
  document_end_produced
    (outcome (Sample.run_ops
                [op_peek; op_skip; op_peek; op_skip] (initial_parser toks))) = false.
Proof. vm_compute. repeat split. Qed.

(** *** Instances of the further properties *)

Lemma in_state_no_stack_live (s : ini_parser_state_t) (toks : list ini_token_t) :
  live_in s (in_state_no_stack s toks).
Proof.
  unfold live_in, wf; cbn.
  split; [split; [apply le_n | discriminate] | repeat split].
Defined.

Lemma in_state_wf (s : ini_parser_state_t) (toks : list ini_token_t) :
  wf (in_state s toks).
Proof. exact (proj1 (in_state_live s toks)). Defined.

Lemma peek_token_is_idempotent_witness :
  exists p1,
    peek_token (in_state ini_PARSE_SECTION_KEY_STATE
                  [tok ini_SECTION_KEY_TOKEN 0 0 ""]) =
      Done (Some (tok ini_SECTION_KEY_TOKEN 0 0 ""), p1) /\
    peek_token p1 = Done (Some (tok ini_SECTION_KEY_TOKEN 0 0 ""), p1) /\
    tokens_head p1 = 0%nat.
Proof.
  destruct (peek_token_is_idempotent
              (in_state ini_PARSE_SECTION_KEY_STATE
                 [tok ini_SECTION_KEY_TOKEN 0 0 ""])
              (tok ini_SECTION_KEY_TOKEN 0 0 "") []
              (in_state_wf _ _) eq_refl)
    as (p1 & E1 & E2 & _ & Hh & _).
  exists p1. split; [exact E1 | split; [exact E2 | exact Hh]].
Defined.

Lemma peek_then_skip_removes_one_witness :
  exists p2,
    (tok <- peek_token ;; skip_token ;;; ret tok)
      (in_state ini_PARSE_SECTION_ENTRY_STATE
         [tok ini_DOCUMENT_END_TOKEN 0 0 ""; tok ini_SCALAR_TOKEN 0 1 "x"]) =
      Done (Some (tok ini_DOCUMENT_END_TOKEN 0 0 ""), p2) /\
    upcoming p2 = [tok ini_SCALAR_TOKEN 0 1 "x"] /\
    tokens_head p2 = 1%nat /\
    document_end_produced p2 = true.
Proof.
  destruct (peek_then_skip_removes_one
              (in_state ini_PARSE_SECTION_ENTRY_STATE
                 [tok ini_DOCUMENT_END_TOKEN 0 0 ""; tok ini_SCALAR_TOKEN 0 1 "x"])
              (tok ini_DOCUMENT_END_TOKEN 0 0 "") [tok ini_SCALAR_TOKEN 0 1 "x"]
              (in_state_wf _ _) eq_refl)
    as (p2 & E & _ & Hu & Hh & _ & Hd & _).
  exists p2. split; [exact E | split; [exact Hu | split; [exact Hh | exact Hd]]].
Defined.

Lemma document_start_transition_witness :
  exists p',
    Sample.parse empty_event (initial_parser framing_stream) =
      Done ((true,
             mk_event ini_DOCUMENT_START_EVENT (mk_mark 0 0 0) (mk_mark 0 0 0)
               [] [] false 0), p') /\
    state p' = ini_PARSE_SECTION_FIRST_ENTRY_STATE /\
    states p' = [ini_PARSE_DOCUMENT_END_STATE].
Proof.
  destruct (document_start_transition section_tag inherit_tag null_tag classify
              empty_event (initial_parser framing_stream)
              (tok ini_DOCUMENT_START_TOKEN 0 0 "")
              [tok ini_DOCUMENT_END_TOKEN 0 0 ""]
              (initial_parser_live _) eq_refl eq_refl)
    as (p' & E & (_ & _ & _ & Hs) & _ & Hst & _).
  exists p'. split; [exact E | split; [exact Hs | exact Hst]].
Defined.

Lemma document_start_missing_witness :
  exists p',
    Sample.parse empty_event
      (initial_parser [tok ini_DOCUMENT_END_TOKEN 0 0 ""]) =
      Done ((false, empty_event), p') /\
    problem p' = "did not find expected <document-start>" /\
    document_end_produced p' = true.
Proof.
  destruct (document_start_missing section_tag inherit_tag null_tag classify
              empty_event (initial_parser [tok ini_DOCUMENT_END_TOKEN 0 0 ""])
              (tok ini_DOCUMENT_END_TOKEN 0 0 "") []
              (initial_parser_live _) eq_refl
              (fun H => ltac:(discriminate H)))
    as (p' & E & _ & Hpr & _ & _ & _ & _ & _ & Hd).
  exists p'. split; [exact E | split; [exact Hpr | exact Hd]].
Defined.

Lemma section_key_scalar_witness :
  exists p',
    Sample.parse empty_event
      (in_state ini_PARSE_SECTION_KEY_STATE
         [tok ini_SECTION_KEY_TOKEN 0 0 ""; tok ini_SCALAR_TOKEN 0 4 "port"]) =
      Done ((true,
             mk_event ini_SCALAR_EVENT (mk_mark 0 0 0) (mk_mark 4 0 4)
               (list_byte_of_string "port") (list_byte_of_string "str")
               false 0), p') /\
    state p' = ini_PARSE_SECTION_VALUE_STATE.
Proof.
  destruct (section_key_scalar section_tag inherit_tag null_tag classify
              false empty_event
              (in_state ini_PARSE_SECTION_KEY_STATE
                 [tok ini_SECTION_KEY_TOKEN 0 0 ""; tok ini_SCALAR_TOKEN 0 4 "port"])
              (tok ini_SECTION_KEY_TOKEN 0 0 "") (tok ini_SCALAR_TOKEN 0 4 "port") []
              (in_state_live _ _) eq_refl eq_refl eq_refl)
    as (p' & E & (_ & _ & _ & Hs) & _).
  exists p'. split; [exact E | exact Hs].
Defined.

Lemma section_key_without_scalar_witness :
  exists p',
    Sample.parse empty_event
      (in_state ini_PARSE_SECTION_KEY_STATE
         [tok ini_SECTION_KEY_TOKEN 0 0 ""; tok ini_SECTION_VALUE_TOKEN 0 1 "="]) =
      Done ((false, empty_event), p') /\
    problem p' = "did not find expected <scalar>" /\
    upcoming p' = [tok ini_SECTION_VALUE_TOKEN 0 1 "="].
Proof.
  destruct (section_key_without_scalar section_tag inherit_tag null_tag classify
              false empty_event
              (in_state ini_PARSE_SECTION_KEY_STATE
                 [tok ini_SECTION_KEY_TOKEN 0 0 "";
                  tok ini_SECTION_VALUE_TOKEN 0 1 "="])
              (tok ini_SECTION_KEY_TOKEN 0 0 "")
              (tok ini_SECTION_VALUE_TOKEN 0 1 "=") []
              (in_state_live _ _) eq_refl eq_refl
              (fun H => ltac:(discriminate H)))
    as (p' & E & _ & Hpr & _ & _ & _ & Hu).
  exists p'. split; [exact E | split; [exact Hpr | exact Hu]].
Defined.

Lemma section_value_scalar_witness :
  exists p',
    Sample.parse empty_event
      (in_state ini_PARSE_SECTION_VALUE_STATE
         [tok ini_SECTION_VALUE_TOKEN 4 5 "="; tok ini_SCALAR_TOKEN 5 7 "80"]) =
      Done ((true,
             mk_event ini_SCALAR_EVENT (mk_mark 4 0 4) (mk_mark 7 0 7)
               (list_byte_of_string "80") (list_byte_of_string "str")
               false 0), p') /\
    state p' = ini_PARSE_SECTION_KEY_STATE.
Proof.
  destruct (section_value_scalar section_tag inherit_tag null_tag classify
              empty_event
              (in_state ini_PARSE_SECTION_VALUE_STATE
                 [tok ini_SECTION_VALUE_TOKEN 4 5 "="; tok ini_SCALAR_TOKEN 5 7 "80"])
              (tok ini_SECTION_VALUE_TOKEN 4 5 "=") (tok ini_SCALAR_TOKEN 5 7 "80") []
              (in_state_live _ _) eq_refl eq_refl eq_refl)
    as (p' & E & (_ & _ & _ & Hs) & _).
  exists p'. split; [exact E | exact Hs].
Defined.

Lemma section_value_without_marker_witness :
  exists p',
    Sample.parse empty_event
      (in_state ini_PARSE_SECTION_VALUE_STATE
         [tok ini_SCALAR_TOKEN 5 7 "80"]) =
      Done ((false, empty_event), p') /\
    problem p' = "did not find expected <section-value>" /\
    tokens_head p' = 0%nat.
Proof.
  destruct (section_value_without_marker section_tag inherit_tag null_tag
              classify empty_event
              (in_state ini_PARSE_SECTION_VALUE_STATE
                 [tok ini_SCALAR_TOKEN 5 7 "80"])
              (tok ini_SCALAR_TOKEN 5 7 "80") []
              (in_state_live _ _) eq_refl
              (fun H => ltac:(discriminate H)))
    as (p' & E & _ & Hpr & _ & _ & Hh & _).
  exists p'. split; [exact E | split; [exact Hpr | exact Hh]].
Defined.

Lemma section_entry_unexpected_token_witness :
  exists p',
    Sample.parse empty_event
      (in_state ini_PARSE_SECTION_ENTRY_STATE
         [tok ini_SECTION_KEY_TOKEN 3 3 ""]) =
      Done ((false, empty_event), p') /\
    problem p' = "did not find expected <section-start> or <section-key>" /\
    problem_mark p' = mk_mark 3 0 3.
Proof.
  destruct (section_entry_unexpected_token section_tag inherit_tag null_tag
              classify false empty_event
              (in_state ini_PARSE_SECTION_ENTRY_STATE
                 [tok ini_SECTION_KEY_TOKEN 3 3 ""])
              (tok ini_SECTION_KEY_TOKEN 3 3 "") []
              (in_state_live _ _) eq_refl
              (fun H => ltac:(discriminate H))
              (fun H => ltac:(discriminate H))
              (fun H => ltac:(discriminate H))
              (fun H => ltac:(discriminate H)))
    as (p' & E & _ & Hpr & Hm & _).
  exists p'. split; [exact E | split; [exact Hpr | exact Hm]].
Defined.

Lemma section_header_without_name_witness :
  exists p',
    Sample.parse empty_event
      (in_state ini_PARSE_SECTION_ENTRY_STATE
         [tok ini_SECTION_START_TOKEN 0 1 "["; tok ini_SECTION_END_TOKEN 1 2 "]"]) =
      Done ((false, empty_event), p') /\
    problem p' = "did not find expected <scalar>" /\
    upcoming p' = [].
Proof.
  destruct (section_header_without_name section_tag inherit_tag null_tag
              classify false empty_event
              (in_state ini_PARSE_SECTION_ENTRY_STATE
                 [tok ini_SECTION_START_TOKEN 0 1 "[";
                  tok ini_SECTION_END_TOKEN 1 2 "]"])
              (tok ini_SECTION_START_TOKEN 0 1 "[")
              (tok ini_SECTION_END_TOKEN 1 2 "]") []
              (in_state_live _ _) eq_refl eq_refl
              (fun H => ltac:(discriminate H)))
    as (p' & E & _ & Hpr & _ & _ & _ & Hu).
  exists p'. split; [exact E | split; [exact Hpr | exact Hu]].
Defined.

Lemma section_header_without_parent_witness :
  exists p',
    Sample.parse empty_event
      (in_state ini_PARSE_SECTION_ENTRY_STATE
         [ tok ini_SECTION_START_TOKEN 0 1 "["; tok ini_SCALAR_TOKEN 1 2 "c";
           tok ini_SECTION_INHERIT_TOKEN 2 3 ":";
           tok ini_SECTION_END_TOKEN 3 4 "]" ]) =
      Done ((false, empty_event), p') /\
    problem p' = "did not find expected <scalar>" /\
    problem_mark p' = mk_mark 3 0 3.
Proof.
  destruct (section_header_without_parent section_tag inherit_tag null_tag
              classify false empty_event
              (in_state ini_PARSE_SECTION_ENTRY_STATE
                 [ tok ini_SECTION_START_TOKEN 0 1 "["; tok ini_SCALAR_TOKEN 1 2 "c";
                   tok ini_SECTION_INHERIT_TOKEN 2 3 ":";
                   tok ini_SECTION_END_TOKEN 3 4 "]" ])
              (tok ini_SECTION_START_TOKEN 0 1 "[") (tok ini_SCALAR_TOKEN 1 2 "c")
              (tok ini_SECTION_INHERIT_TOKEN 2 3 ":")
              (tok ini_SECTION_END_TOKEN 3 4 "]") []
              (in_state_live _ _) eq_refl eq_refl eq_refl eq_refl
              (fun H => ltac:(discriminate H)))
    as (p' & E & _ & Hpr & Hm & _).
  exists p'. split; [exact E | split; [exact Hpr | exact Hm]].
Defined.

Lemma inherit_header_without_section_end_witness :
  exists p',
    Sample.parse empty_event
      (in_state ini_PARSE_SECTION_ENTRY_STATE
         [ tok ini_SECTION_START_TOKEN 0 1 "["; tok ini_SCALAR_TOKEN 1 2 "c";
           tok ini_SECTION_INHERIT_TOKEN 2 3 ":"; tok ini_SCALAR_TOKEN 3 4 "p";
           tok ini_DOCUMENT_END_TOKEN 4 4 "" ]) =
      Done ((false, empty_event), p') /\
    problem p' = "did not find expected <section-end>" /\
    problem_mark p' = mk_mark 4 0 4.
Proof.
  destruct (inherit_header_without_section_end section_tag inherit_tag null_tag
              classify false empty_event
              (in_state ini_PARSE_SECTION_ENTRY_STATE
                 [ tok ini_SECTION_START_TOKEN 0 1 "["; tok ini_SCALAR_TOKEN 1 2 "c";
                   tok ini_SECTION_INHERIT_TOKEN 2 3 ":";
                   tok ini_SCALAR_TOKEN 3 4 "p";
                   tok ini_DOCUMENT_END_TOKEN 4 4 "" ])
              (tok ini_SECTION_START_TOKEN 0 1 "[") (tok ini_SCALAR_TOKEN 1 2 "c")
              (tok ini_SECTION_INHERIT_TOKEN 2 3 ":") (tok ini_SCALAR_TOKEN 3 4 "p")
              (tok ini_DOCUMENT_END_TOKEN 4 4 "") []
              (in_state_live _ _) eq_refl eq_refl eq_refl eq_refl eq_refl
              (fun H => ltac:(discriminate H)))
    as (p' & E & _ & Hpr & Hm & _).
  exists p'. split; [exact E | split; [exact Hpr | exact Hm]].
Defined.

Lemma zero_parser_not_halted (toks : list ini_token_t) :
  ~ halted (zero_parser toks).
Proof.
  intros [H|[H|H]]; [discriminate H | exact (H eq_refl) | discriminate H].
Defined.

Lemma undispatched_state_panics_witness :
  Sample.parse empty_event (zero_parser framing_stream) =
    Panic "invalid parser state".
Proof.
  exact (undispatched_state_panics section_tag inherit_tag null_tag classify
           empty_event (zero_parser framing_stream)
           (zero_parser_not_halted _) eq_refl).
Defined.

Lemma document_end_on_empty_stack_panics_witness :
  Sample.parse empty_event
    (in_state_no_stack ini_PARSE_SECTION_ENTRY_STATE
       [tok ini_DOCUMENT_END_TOKEN 0 0 ""]) = Panic "index out of range".
Proof.
  exact (document_end_on_empty_stack_panics section_tag inherit_tag null_tag
           classify false empty_event
           (in_state_no_stack ini_PARSE_SECTION_ENTRY_STATE
              [tok ini_DOCUMENT_END_TOKEN 0 0 ""])
           (tok ini_DOCUMENT_END_TOKEN 0 0 "") []
           (in_state_no_stack_live _ _) eq_refl eq_refl eq_refl).
Defined.

(** The parser after the first call on the empty-section stream. *)
Lemma after_first_call_reachable :
  reachable Sample.parse
    (outcome (Sample.run_ops [op_parse empty_event]
                (initial_parser empty_section_stream))).
Proof.
  apply (reach_call Sample.parse (initial_parser empty_section_stream)
           empty_event
           (true,
            mk_event ini_DOCUMENT_START_EVENT (mk_mark 0 0 0) (mk_mark 0 0 0)
              [] [] false 0)).
  - apply reach_initial.
  - vm_compute. reflexivity.
Defined.

Lemma state_stack_at_most_one_witness :
  (states (outcome (Sample.run_ops [op_parse empty_event]
                      (initial_parser empty_section_stream))) = [] \/
   states (outcome (Sample.run_ops [op_parse empty_event]
                      (initial_parser empty_section_stream))) =
     [ini_PARSE_DOCUMENT_END_STATE]) /\
  (List.length
     (states (outcome (Sample.run_ops [op_parse empty_event]
                         (initial_parser empty_section_stream)))) <= 1)%nat.
Proof.
  exact (state_stack_at_most_one section_tag inherit_tag null_tag classify _
           after_first_call_reachable).
Defined.

(** The parser after the two calls on the unterminated header. *)
Lemma after_failure_reachable :
  reachable Sample.parse
    (outcome (Sample.run_ops [op_parse empty_event; op_parse empty_event]
                (initial_parser unterminated_stream))).
Proof.
  apply (reach_call Sample.parse
           (outcome (Sample.run_ops [op_parse empty_event]
                       (initial_parser unterminated_stream)))
           empty_event (false, empty_event)).
  - apply (reach_call Sample.parse (initial_parser unterminated_stream)
             empty_event
             (true,
              mk_event ini_DOCUMENT_START_EVENT (mk_mark 0 0 0) (mk_mark 0 0 0)
                [] [] false 0)).
    + apply reach_initial.
    + vm_compute. reflexivity.
  - vm_compute. reflexivity.
Defined.

Lemma recorded_errors_are_known_witness :
  let p := outcome (Sample.run_ops [op_parse empty_event; op_parse empty_event]
                      (initial_parser unterminated_stream)) in
  (error p = ini_NO_ERROR \/ error p = ini_SCANNER_ERROR \/
   (error p = ini_PARSER_ERROR /\ In (problem p) parser_problems)) /\
  error p = ini_PARSER_ERROR.
Proof.
  split.
  - exact (recorded_errors_are_known section_tag inherit_tag null_tag classify
             _ after_failure_reachable).
  - reflexivity.
Defined.

Lemma events_of_calls_witness :
  match Sample.parse empty_event (initial_parser unterminated_stream) with
  | Done ((b, e), _) =>
      (b = false -> e = empty_event) /\
      (b = true -> e = empty_event \/ In (e_typ e) emitted_kinds)
  | Panic _ => False
  end.
Proof.
  destruct (Sample.parse empty_event (initial_parser unterminated_stream))
    as [[[b e] p']|msg] eqn:E.
  - exact (events_of_calls section_tag inherit_tag null_tag classify
             empty_event (initial_parser unterminated_stream) p' b e
             (reach_initial _ _) E).
  - vm_compute in E. discriminate E.
Defined.

Lemma tokens_are_consumed_in_order_witness :
  match Sample.parse_all (repeat empty_event 3)
          (initial_parser empty_section_stream) with
  | Done (_, p') =>
      exists k,
        upcoming p' = skipn k (upcoming (initial_parser empty_section_stream)) /\
        tokens_head p' = (k + 0)%nat
  | Panic _ => False
  end.
Proof.
  unfold Sample.parse_all, Sample.parse.
  match goal with
  | |- match ?x with _ => _ end => destruct x as [[rs p']|msg] eqn:E
  end.
  - exact (tokens_are_consumed_in_order section_tag inherit_tag null_tag
             classify (repeat empty_event 3)
             (initial_parser empty_section_stream) p' rs
             (reach_initial _ _) E).
  - vm_compute in E. discriminate E.
Defined.

Lemma calls_come_to_an_end_witness :
  (calls_left (initial_parser empty_section_stream) = 11)%nat /\
  exists rs p',
    Sample.parse_all (repeat empty_event 12)
      (initial_parser empty_section_stream) = Done (rs, p') /\
    halted p'.
Proof.
  split; [reflexivity|]. unfold Sample.parse_all, Sample.parse.
  apply (calls_come_to_an_end section_tag inherit_tag null_tag classify
           (repeat empty_event 12) (initial_parser empty_section_stream)
           (reach_initial _ _)).
  vm_compute. repeat constructor.
Defined.

Lemma document_start_only_first_witness :
  match Sample.parse_all (repeat empty_event 4)
          (initial_parser empty_section_stream) with
  | Done (_ :: rs, _) =>
      Forall (fun x => e_typ (snd x) <> ini_DOCUMENT_START_EVENT) rs
  | _ => False
  end.
Proof.
  unfold Sample.parse_all, Sample.parse.
  match goal with
  | |- match ?x with _ => _ end => destruct x as [[[|r rs] p']|msg] eqn:E
  end.
  - vm_compute in E. discriminate E.
  - exact (document_start_only_first section_tag inherit_tag null_tag classify
             empty_section_stream empty_event (repeat empty_event 3) r rs p' E).
  - vm_compute in E. discriminate E.
Defined.

Lemma well_formed_document_events_witness :
  document_ok sample_document = true /\
  exists p',
    Sample.parse_all (repeat empty_event 12)
      (initial_parser (document_tokens sample_document)) =
      Done (map (fun e => (true, e))
              (document_events section_tag inherit_tag null_tag classify
                 sample_document), p') /\
    state p' = ini_PARSE_DOCUMENT_END_STATE.
Proof.
  split; [reflexivity|]. unfold Sample.parse_all, Sample.parse.
  destruct (well_formed_document_events section_tag inherit_tag null_tag
              classify sample_document (repeat empty_event 12)
              eq_refl eq_refl)
    as (p' & E & Hs & _).
  exists p'. split; [exact E | exact Hs].
Defined.

(** The events of the sample document, as kinds and values. *)
Example sample_document_run :
  summary (Sample.parse_all (repeat empty_event 12)
             (initial_parser (document_tokens sample_document))) =
  [ (true, ini_DOCUMENT_START_EVENT, []);
    (true, ini_SECTION_ENTRY_EVENT, list_byte_of_string "default");
    (true, ini_SCALAR_EVENT, list_byte_of_string "a");
    (true, ini_SCALAR_EVENT, list_byte_of_string "1");
    (true, ini_SECTION_ENTRY_EVENT, []);
    (true, ini_SECTION_ENTRY_EVENT, list_byte_of_string "child:parent");
    (true, ini_SCALAR_EVENT, list_byte_of_string "k");
    (true, ini_SCALAR_EVENT, []);
    (true, ini_SECTION_ENTRY_EVENT, []);
    (true, ini_SECTION_ENTRY_EVENT, list_byte_of_string "s");
    (true, ini_SECTION_ENTRY_EVENT, []);
    (true, ini_DOCUMENT_END_EVENT, []) ].
Proof. vm_compute. reflexivity. Qed.

Lemma token_type_names_distinct_witness :
  ini_token_type_t_String ini_KEY_TOKEN <> "<unknown token>" /\
  (ini_token_type_t_String ini_KEY_TOKEN =
     ini_token_type_t_String ini_VALUE_TOKEN -> ini_KEY_TOKEN = ini_VALUE_TOKEN).
Proof.
  exact (token_type_names_distinct ini_KEY_TOKEN ini_VALUE_TOKEN eq_refl eq_refl).
Defined.

Lemma parser_state_names_collide_witness :
  (ini_parser_state_t_String ini_PARSE_STREAM_END_STATE =
     "ini_PARSE_DOCUMENT_END_STATE" <->
   ini_PARSE_STREAM_END_STATE = ini_PARSE_DOCUMENT_END_STATE \/
   ini_PARSE_STREAM_END_STATE = ini_PARSE_STREAM_END_STATE) /\
  (ini_parser_state_t_String ini_PARSE_STREAM_END_STATE =
     "<unknown parser state>" <->
   ini_PARSE_STREAM_END_STATE = ini_PARSE_SECTION_FIRST_ENTRY_STATE).
Proof.
  exact (parser_state_names_collide ini_PARSE_STREAM_END_STATE eq_refl).
Defined.
